(** * Lead board (frnt/src/app/lead/leadDrop/page.tsx)

    A shallow embedding of the drag-and-drop lead board: the grouping of
    the fetched leads by status, the optimistic move applied when a card is
    dropped on another column, and the rollback applied when the server
    rejects the move or the request fails.

    Conventions of the embedding.
    - [groupedLeads] is a JavaScript object used as a map from status to an
      array of leads: a [gmap string (list Lead)].  Reading a key that is
      not there gives [undefined], here [None].  In [groupLeadsByStatus]
      the keys are the statuses sent by the server, and a key that the
      empty accumulator inherits from [Object.prototype] makes the reduce
      throw: those names are listed in [Object_prototype_names].  In the
      handlers of a drop the keys are names of columns, which the JSX
      takes from [statusColors].
    - A state updater handed to [setGroupedLeads] is a function of the
      previous state.  Calling [.filter] on [undefined] throws a TypeError
      while React renders, which unmounts the page: the updaters return
      [option], and [None] is that failure.
    - [console.warn]/[console.error] and the issued [fetch] requests are
      recorded in the page state, so that what a handler reports can be
      stated.
    - [await] is the only suspension point of [handleDrop]: the handler is
      split there into [handleDrop_sync] and [handleDrop_resume], and the
      answer of the server is an argument of the second half. *)

From stdpp Require Import base option strings list gmap relations.
From Stdlib Require Import ZArith.

Open Scope string_scope.
Open Scope list_scope.

(** ** Data model *)

(** [interface Lead].  [amount] is a JavaScript number that the page only
    displays; it is carried as an integer. *)
Record Lead := mkLead {
  _id : string;
  companyName : string;
  customerName : string;
  amount : Z;
  productName : string;
  contactNumber : string;
  emailAddress : string;
  address : string;
  notes : string;
  date : string;
  endDate : string;
  status : string;
  isActive : bool
}.

#[global] Instance Lead_eq_dec : EqDecision Lead.
Proof. solve_decision. Defined.

(** [{ ...lead, status: toStatus }] *)
Definition with_status (lead : Lead) (toStatus : string) : Lead :=
  {| _id := _id lead;
     companyName := companyName lead;
     customerName := customerName lead;
     amount := amount lead;
     productName := productName lead;
     contactNumber := contactNumber lead;
     emailAddress := emailAddress lead;
     address := address lead;
     notes := notes lead;
     date := date lead;
     endDate := endDate lead;
     status := toStatus;
     isActive := isActive lead |}.

(** What [getAllLeads] returns on success and the [leads] state holds:
    the array under [data], or a value that is not an array (the answer
    has none, for one); [reduce_error] is then the message of the
    TypeError that calling [.reduce] on that value throws. *)
Inductive Fetched :=
| fetched_array (l : list Lead)
| fetched_other (reduce_error : string).

(** [Record<string, Lead[]>] *)
Abbreviation Store := (gmap string (list Lead)).

(** What the page shows in a column: [groupedLeads[status]], an absent key
    showing as an empty column. *)
Definition partition (s : Store) (k : string) : list Lead :=
  default [] (s !! k).

(** The identifiers of the cards of a column. *)
Definition ids (l : list Lead) : list string := _id <$> l.

(** [l.filter((l) => l._id !== id)] *)
Definition without (id : string) (l : list Lead) : list Lead :=
  filter (λ l, _id l ≠ id) l.

Inductive ConsoleEntry :=
| console_warn (args : list string)
| console_error (args : list string).

#[global] Instance ConsoleEntry_eq_dec : EqDecision ConsoleEntry.
Proof. solve_decision. Defined.

(** A [fetch] call: the URL and, for a POST, the JSON body
    [{ leadId, status }]. *)
Record Request := mkRequest {
  url : string;
  body : option (string * string)
}.

(** The state of the component ([useState] cells) together with the
    console and the requests sent so far. *)
Record Page := mkPage {
  leads : Fetched;
  groupedLeads : Store;
  error : string;
  console : list ConsoleEntry;
  requests : list Request
}.

Definition initial_page : Page :=
  {| leads := fetched_array []; groupedLeads := ∅; error := "";
     console := []; requests := [] |}.

Definition setLeads (v : Fetched) (p : Page) : Page :=
  {| leads := v; groupedLeads := groupedLeads p; error := error p;
     console := console p; requests := requests p |}.

Definition setError (v : string) (p : Page) : Page :=
  {| leads := leads p; groupedLeads := groupedLeads p; error := v;
     console := console p; requests := requests p |}.

(** [setGroupedLeads(updater)]: the updater runs on the previous state; an
    updater that throws takes the page down. *)
Definition setGroupedLeads (updater : Store → option Store) (p : Page) : option Page :=
  s ← updater (groupedLeads p);
  Some {| leads := leads p; groupedLeads := s; error := error p;
          console := console p; requests := requests p |}.

Definition log (e : ConsoleEntry) (p : Page) : Page :=
  {| leads := leads p; groupedLeads := groupedLeads p; error := error p;
     console := console p ++ [e]; requests := requests p |}.

Definition send (r : Request) (p : Page) : Page :=
  {| leads := leads p; groupedLeads := groupedLeads p; error := error p;
     console := console p; requests := requests p ++ [r] |}.

(** ** Initial load *)

(** What the GET of [getAllLeads] does: it answers with a JSON body
    [{ success, data, message }], or [fetch]/[json()] throws. *)
Inductive LoadOutcome :=
| LoadResponded (success : bool) (data : Fetched) (message : string)
| LoadThrew (message : string).

Definition getAllLeads_url : string := "http://localhost:8000/api/v1/lead/getAllLeads".
Definition updateLeadStatus_url : string := "http://localhost:8000/api/v1/lead/updateLeadStatus".

(** The [try] block of [getAllLeads]: the data, or the message of the
    error thrown inside the block. *)
Definition getAllLeads_try (o : LoadOutcome) : string + Fetched :=
  match o with
  | LoadResponded true data _ => inr data
  | LoadResponded false _ message => inl message
  | LoadThrew message => inl message
  end.

(** [getAllLeads]: the [catch] logs the error it caught and throws a new
    one with a fixed message. *)
Definition getAllLeads (o : LoadOutcome) (p : Page) : Page * (string + Fetched) :=
  let p := send {| url := getAllLeads_url; body := None |} p in
  match getAllLeads_try o with
  | inr data => (p, inr data)
  | inl message =>
      (log (console_error ["Error fetching leads:"; message]) p,
       inl "Failed to fetch leads")
  end.

(** The property names that the accumulator [{}] of the reduce inherits
    from [Object.prototype]: read under one of them, [acc[lead.status]] is
    a function (the prototype itself for [__proto__]), truthy and without
    a [push]. *)
Definition Object_prototype_names : list string :=
  ["constructor"; "__defineGetter__"; "__defineSetter__"; "hasOwnProperty";
   "__lookupGetter__"; "__lookupSetter__"; "isPrototypeOf";
   "propertyIsEnumerable"; "toString"; "valueOf"; "__proto__";
   "toLocaleString"].

(** The message of the TypeError thrown by [acc[lead.status].push(lead)]
    when [push] is undefined (the text is the engine's). *)
Definition push_TypeError_message : string :=
  "acc[lead.status].push is not a function".

(** The body of the callback of [leads.reduce] when [acc[lead.status]] is
    an array of the accumulator or is not there. *)
Definition group_into (acc : Store) (lead : Lead) : Store :=
  let acc :=
    match acc !! status lead with
    | None => <[status lead := []]> acc
    | Some _ => acc
    end in
  <[status lead := partition acc (status lead) ++ [lead]]> acc.

(** The callback of [leads.reduce] in [groupLeadsByStatus]: under an
    inherited name no array is created and the [push] throws. *)
Definition group_step (acc : Store) (lead : Lead) : option Store :=
  if decide (status lead ∈ Object_prototype_names) then None
  else Some (group_into acc lead).

(** [leads.reduce(callback, acc)] *)
Fixpoint reduce_leads (acc : Store) (fetched : list Lead) : option Store :=
  match fetched with
  | [] => Some acc
  | lead :: fetched => acc ← group_step acc lead; reduce_leads acc fetched
  end.

(** No lead has a status under which the reduce throws. *)
Definition groupable (fetched : list Lead) : Prop :=
  Forall (λ lead, status lead ∉ Object_prototype_names) fetched.

(** [groupLeadsByStatus]: the message of the TypeError thrown by the
    reduce, or the page with the grouping stored. *)
Definition groupLeadsByStatus (fetched : Fetched) (p : Page) : string + Page :=
  match fetched with
  | fetched_other reduce_error => inl reduce_error
  | fetched_array l =>
      match reduce_leads ∅ l with
      | Some g =>
          inr {| leads := leads p; groupedLeads := g; error := error p;
                 console := console p; requests := requests p |}
      | None => inl push_TypeError_message
      end
  end.

(** The effect [fetchLeads] run once when the page mounts: whatever is
    thrown in its [try], by [getAllLeads] or by the grouping, ends in
    [setError]. *)
Definition fetchLeads (o : LoadOutcome) (p : Page) : Page :=
  match getAllLeads o p with
  | (p, inr fetchedLeads) =>
      let p := setLeads fetchedLeads p in
      match groupLeadsByStatus fetchedLeads p with
      | inr p => p
      | inl message => setError message p
      end
  | (p, inl message) => setError message p
  end.

(** The grouped leads of the page just mounted with the array [fetched]:
    the result of the reduce, or the initial [{}] when the reduce threw. *)
Definition grouped (fetched : list Lead) : Store :=
  default ∅ (reduce_leads ∅ fetched).

(** ** Drag and drop *)

(** The payload of a drag: [handleDragStart] stores the lead (as JSON) and
    the column it was picked from; [handleDrop] reads both back. *)
Record DragEvent := mkDragEvent {
  dataTransfer_lead : Lead;
  dataTransfer_fromStatus : string
}.

Definition handleDragStart (lead : Lead) (fromStatus : string) : DragEvent :=
  {| dataTransfer_lead := lead; dataTransfer_fromStatus := fromStatus |}.

(** The updater of the optimistic move (first [setGroupedLeads] of
    [handleDrop]). *)
Definition optimistic_update (lead : Lead) (fromStatus toStatus : string)
    (prev : Store) : option Store :=
  let updatedLead := with_status lead toStatus in
  fromList ← prev !! fromStatus;
  let fromLeads := without (_id lead) fromList in
  let toLeads := partition prev toStatus ++ [updatedLead] in
  Some (<[toStatus := toLeads]> (<[fromStatus := fromLeads]> prev)).

(** The updater of the rollback in the [if (!data.success)] branch. *)
Definition rollback_rejected (lead : Lead) (fromStatus toStatus : string)
    (prev : Store) : option Store :=
  toList ← prev !! toStatus;
  let toLeads := without (_id lead) toList in
  let fromLeads := partition prev fromStatus ++ [lead] in
  Some (<[toStatus := toLeads]> (<[fromStatus := fromLeads]> prev)).

(** The updater of the rollback in the [catch] block. *)
Definition rollback_error (lead : Lead) (fromStatus toStatus : string)
    (prev : Store) : option Store :=
  toList ← prev !! toStatus;
  let toLeads := without (_id lead) toList in
  let fromLeads := partition prev fromStatus ++ [lead] in
  Some (<[toStatus := toLeads]> (<[fromStatus := fromLeads]> prev)).

(** What the POST of [handleDrop] does: it answers with a body whose
    [success] is truthy or not, or [fetch]/[json()] throws. *)
Inductive FetchOutcome :=
| Responded (success : bool)
| FetchThrew (message : string).

Inductive DropPhase := Returned | AwaitingFetch.

Definition same_category_warning : ConsoleEntry :=
  console_warn ["Cannot drop into the same category."].
Definition server_failure_report : ConsoleEntry :=
  console_error ["Failed to update lead status on server."].
Definition fetch_error_report (message : string) : ConsoleEntry :=
  console_error ["Error updating lead status:"; message].

Definition update_request (lead : Lead) (toStatus : string) : Request :=
  {| url := updateLeadStatus_url; body := Some (_id lead, toStatus) |}.

(** [handleDrop] up to its first [await]. *)
Definition handleDrop_sync (p : Page) (e : DragEvent) (toStatus : string)
    : option (Page * DropPhase) :=
  let lead := dataTransfer_lead e in
  let fromStatus := dataTransfer_fromStatus e in
  if decide (fromStatus = toStatus) then
    Some (log same_category_warning p, Returned)
  else
    p ← setGroupedLeads (optimistic_update lead fromStatus toStatus) p;
    Some (send (update_request lead toStatus) p, AwaitingFetch).

(** [handleDrop] from the point where the request has settled, run on the
    state of the page at that time. *)
Definition handleDrop_resume (p : Page) (e : DragEvent) (toStatus : string)
    (o : FetchOutcome) : option Page :=
  let lead := dataTransfer_lead e in
  let fromStatus := dataTransfer_fromStatus e in
  match o with
  | Responded true => Some p
  | Responded false =>
      p ← setGroupedLeads (rollback_rejected lead fromStatus toStatus) p;
      Some (log server_failure_report p)
  | FetchThrew message =>
      setGroupedLeads (rollback_error lead fromStatus toStatus)
        (log (fetch_error_report message) p)
  end.

(** A whole drop with nothing else happening on the page meanwhile. *)
Definition handleDrop (p : Page) (e : DragEvent) (toStatus : string)
    (o : FetchOutcome) : option Page :=
  '(p, phase) ← handleDrop_sync p e toStatus;
  match phase with
  | Returned => Some p
  | AwaitingFetch => handleDrop_resume p e toStatus o
  end.

(** ** Sample data *)

Definition sample_lead (id st : string) : Lead :=
  {| _id := id; companyName := "Acme"; customerName := "Ada"; amount := 100;
     productName := "CRM"; contactNumber := "555"; emailAddress := "a@acme.io";
     address := "1 Main St"; notes := ""; date := "2025-01-01";
     endDate := "2025-02-01"; status := st; isActive := true |}.

Definition L1 : Lead := sample_lead "L1" "New".
Definition L2 : Lead := sample_lead "L2" "New".
Definition L3 : Lead := sample_lead "L3" "Demo".

Definition loaded_page : Page :=
  fetchLeads (LoadResponded true (fetched_array [L1; L2; L3]) "") initial_page.

(** The grouped leads after L1 has been moved from "New" to "Demo" and
    rolled back. *)
Definition moved_and_back : Store :=
  default ∅ (optimistic_update L1 "New" "Demo" (grouped [L1; L2; L3])
             ≫= rollback_rejected L1 "New" "Demo").

(** ** Properties of the store *)

(** A card with identifier [id] is shown in column [k]. *)
Definition present (id : string) (k : string) (s : Store) : Prop :=
  id ∈ ids (partition s k).

#[global] Instance present_dec id k s : Decision (present id k s).
Proof. unfold present. apply _. Defined.

(** [id] is shown in one column and in no other. *)
Definition in_exactly_one_partition (s : Store) (id : string) : Prop :=
  ∃ k, present id k s ∧ ∀ k', present id k' s → k' = k.

(** A move whose card is in the column it is taken from: the optimistic
    update of a card of [fromStatus], or a rollback of a card that is
    (still) in [toStatus]. *)
Inductive move_step (s : Store) : Store → Prop :=
| move_apply lead fromStatus toStatus s' :
    fromStatus ≠ toStatus →
    present (_id lead) fromStatus s →
    optimistic_update lead fromStatus toStatus s = Some s' →
    move_step s s'
| move_rollback_rejected lead fromStatus toStatus s' :
    fromStatus ≠ toStatus →
    present (_id lead) toStatus s →
    rollback_rejected lead fromStatus toStatus s = Some s' →
    move_step s s'
| move_rollback_error lead fromStatus toStatus s' :
    fromStatus ≠ toStatus →
    present (_id lead) toStatus s →
    rollback_error lead fromStatus toStatus s = Some s' →
    move_step s s'.

(** Where the cards are after a card [id] has gone from column [a] to
    column [b]. *)
Definition moved (id a b : string) (s s' : Store) : Prop :=
  ∀ j k,
    present j k s'
    ↔ if decide (k = b) then present j b s ∨ j = id
      else if decide (k = a) then present j a s ∧ j ≠ id
      else present j k s.

(** ** The rendered board *)

(** [statusColors]: one entry per column of the board. *)
Definition statusColors : list (string * string) :=
  [("New", "bg-blue-100 text-blue-800");
   ("Discussion", "bg-yellow-100 text-yellow-800");
   ("Demo", "bg-purple-100 text-purple-800");
   ("Proposal", "bg-orange-100 text-orange-800");
   ("Decided", "bg-green-100 text-green-800")].

(** [Object.keys(statusColors)] *)
Definition column_names : list string := statusColors.*1.

(** The body of a column: the cards of [groupedLeads[status]] when that is
    an array with at least one element, the text "No leads available"
    otherwise. *)
Inductive ColumnBody :=
| Cards (cards : list Lead)
| NoLeadsAvailable.

Definition render_column (g : Store) (status : string) : ColumnBody :=
  match g !! status with
  | Some l => if bool_decide (0 < length l) then Cards l else NoLeadsAvailable
  | None => NoLeadsAvailable
  end.

(** What [App] returns: the error paragraph, rendered when [error] is not
    the empty string, and one column per key of [statusColors]. *)
Record View := mkView {
  banner : option string;
  view_columns : list (string * ColumnBody)
}.

Definition render (p : Page) : View :=
  {| banner := if decide (error p = "") then None else Some (error p);
     view_columns := (λ st, (st, render_column (groupedLeads p) st)) <$> column_names |}.

(** The card [lead] is on screen in the column headed [st]. *)
Definition displayed (p : Page) (lead : Lead) (st : string) : Prop :=
  ∃ l, (st, Cards l) ∈ view_columns (render p) ∧ lead ∈ l.

(** The [i]-th card of the column headed [st], if the page shows one. *)
Definition card_at (p : Page) (st : string) (i : nat) : option Lead :=
  if decide (st ∈ column_names) then
    match render_column (groupedLeads p) st with
    | Cards l => l !! i
    | NoLeadsAvailable => None
    end
  else None.

(** Every card of a column has that column as its status. *)
Definition coherent (g : Store) : Prop :=
  ∀ k r, r ∈ partition g k → status r = k.

(** ** The page as an event system *)

(** The page with the drag in progress, if any, and the drops whose
    request has not settled.  The handlers are wired as in the JSX:
    [onDragStart] on every card shown, with the card and the name of its
    column; [onDrop] on every column, with the name of the column; the
    continuation of a drop runs when its request settles, at any later
    time and in any order.  A drop that carries no lead (nothing of this
    page is being dragged) fails in [JSON.parse] before any state is
    touched. *)
Record Board := mkBoard {
  page : Page;
  dragging : option DragEvent;
  pending : list (DragEvent * string)
}.

Inductive Event :=
| DragStart (status : string) (i : nat)
| DragEnd
| Drop (toStatus : string)
| Settle (i : nat) (o : FetchOutcome).

(** What an event leads to: the next board, a state updater that throws,
    or nothing because the page offers no such event. *)
Inductive Outcome :=
| Next (b : Board)
| Throws
| NoSuchEvent.

Definition board_step (b : Board) (ev : Event) : Outcome :=
  match ev with
  | DragStart st i =>
      match card_at (page b) st i with
      | Some lead =>
          Next {| page := page b; dragging := Some (handleDragStart lead st);
                  pending := pending b |}
      | None => NoSuchEvent
      end
  | DragEnd => Next {| page := page b; dragging := None; pending := pending b |}
  | Drop toStatus =>
      if decide (toStatus ∈ column_names) then
        match dragging b with
        | None => Next b
        | Some e =>
            match handleDrop_sync (page b) e toStatus with
            | None => Throws
            | Some (p, Returned) =>
                Next {| page := p; dragging := None; pending := pending b |}
            | Some (p, AwaitingFetch) =>
                Next {| page := p; dragging := None;
                        pending := pending b ++ [(e, toStatus)] |}
            end
        end
      else NoSuchEvent
  | Settle i o =>
      match pending b !! i with
      | Some (e, toStatus) =>
          match handleDrop_resume (page b) e toStatus o with
          | Some p =>
              Next {| page := p; dragging := dragging b;
                      pending := delete i (pending b) |}
          | None => Throws
          end
      | None => NoSuchEvent
      end
  end.

Fixpoint board_run (b : Board) (evs : list Event) : Outcome :=
  match evs with
  | [] => Next b
  | ev :: evs =>
      match board_step b ev with
      | Next b => board_run b evs
      | Throws => Throws
      | NoSuchEvent => NoSuchEvent
      end
  end.

(** The board once the effect of the mount has run. *)
Definition mounted (o : LoadOutcome) : Board :=
  {| page := fetchLeads o initial_page; dragging := None; pending := [] |}.

(** What the events keep true of a board mounted with grouped leads [g0]:
    the cards agree with their columns, the entries under other keys than
    the column names are those of [g0], the drag in progress was started
    on a column that has an entry, and every pending drop is a move
    between two columns with an entry for its destination. *)
Record board_inv (g0 : Store) (b : Board) : Prop := mk_board_inv {
  inv_coherent : coherent (groupedLeads (page b));
  inv_hidden : ∀ k, k ∉ column_names → groupedLeads (page b) !! k = g0 !! k;
  inv_dragging : ∀ e, dragging b = Some e →
    status (dataTransfer_lead e) = dataTransfer_fromStatus e
    ∧ dataTransfer_fromStatus e ∈ column_names
    ∧ is_Some (groupedLeads (page b) !! dataTransfer_fromStatus e);
  inv_pending : ∀ e toStatus, (e, toStatus) ∈ pending b →
    status (dataTransfer_lead e) = dataTransfer_fromStatus e
    ∧ dataTransfer_fromStatus e ≠ toStatus
    ∧ dataTransfer_fromStatus e ∈ column_names
    ∧ toStatus ∈ column_names
    ∧ is_Some (groupedLeads (page b) !! toStatus)
}.

(** Some column of the grouped leads holds a card with identifier [id]. *)
Definition on_board (g : Store) (id : string) : Prop :=
  ∃ k, present id k g.

(** The identifiers in the grouped leads are those of [g0], and so are the
    identifiers of the card being dragged and of the cards of the pending
    drops. *)
Record ids_inv (g0 : Store) (b : Board) : Prop := mk_ids_inv {
  inv_ids : ∀ id, on_board (groupedLeads (page b)) id ↔ on_board g0 id;
  inv_dragging_id : ∀ e, dragging b = Some e →
    on_board g0 (_id (dataTransfer_lead e));
  inv_pending_id : ∀ e toStatus, (e, toStatus) ∈ pending b →
    on_board g0 (_id (dataTransfer_lead e))
}.

(** A lead of the load whose status is not the name of a column. *)
Definition L4 : Lead := sample_lead "L4" "Archived".

(** A lead whose status is a name that [{}] inherits. *)
Definition L5 : Lead := sample_lead "L5" "constructor".

(** L1 is dropped on "Demo", picked up there and dropped on "New" before
    the first request settles, and then the first request is rejected. *)
Definition raced_events : list Event :=
  [DragStart "New" 0; Drop "Demo"; DragStart "Demo" 1; Drop "New";
   Settle 0 (Responded false)].

Definition raced_board : Board :=
  match board_run (mounted (LoadResponded true (fetched_array [L1; L2; L3; L4]) "")) raced_events with
  | Next b => b
  | _ => mounted (LoadResponded true (fetched_array [L1; L2; L3; L4]) "")
  end.

(** ** Columns after an update *)

Section columns.
Implicit Types (s prev : Store) (k : string) (l : list Lead).

Lemma partition_insert_eq s k l : partition (<[k := l]> s) k = l.
Proof. unfold partition. by rewrite lookup_insert_eq. Qed.

Lemma partition_insert_ne s k k' l :
  k ≠ k' → partition (<[k := l]> s) k' = partition s k'.
Proof. intros. unfold partition. by rewrite lookup_insert_ne. Qed.

Lemma partition_Some s k l : s !! k = Some l → partition s k = l.
Proof. unfold partition. by intros ->. Qed.

Lemma present_is_Some id k s : present id k s → is_Some (s !! k).
Proof.
  unfold present, partition. destruct (s !! k); [eauto |].
  cbn. by intros ?%elem_of_nil.
Qed.

Lemma elem_of_without id l r : r ∈ without id l ↔ r ∈ l ∧ _id r ≠ id.
Proof. unfold without. rewrite list_elem_of_filter. tauto. Qed.

Lemma ids_without id l j : j ∈ ids (without id l) ↔ j ∈ ids l ∧ j ≠ id.
Proof.
  unfold ids. rewrite !list_elem_of_fmap. split.
  - intros (r & -> & [Hr Hne]%elem_of_without). eauto.
  - intros [(r & -> & Hr) Hne]. exists r. by rewrite elem_of_without.
Qed.

Lemma without_absent id l : id ∉ ids l → without id l = l.
Proof.
  unfold without, ids. induction l as [|r l IH]; [done |].
  rewrite fmap_cons, not_elem_of_cons. intros [Hne Hl].
  rewrite filter_cons_True by congruence. by rewrite IH.
Qed.

Lemma ids_app l1 l2 : ids (l1 ++ l2) = ids l1 ++ ids l2.
Proof. apply fmap_app. Qed.
End columns.

(** ** The three updaters *)

Section updaters.
Context (lead : Lead) (fromStatus toStatus : string).
Implicit Types (s prev : Store) (k : string).

Lemma optimistic_update_is_Some prev :
  is_Some (optimistic_update lead fromStatus toStatus prev)
  ↔ is_Some (prev !! fromStatus).
Proof.
  unfold optimistic_update. destruct (prev !! fromStatus); cbn.
  - split; eauto.
  - split; intros []; done.
Qed.

Lemma optimistic_update_to prev s :
  optimistic_update lead fromStatus toStatus prev = Some s →
  partition s toStatus = partition prev toStatus ++ [with_status lead toStatus].
Proof.
  unfold optimistic_update. destruct (prev !! fromStatus); [|done].
  cbn. intros [= <-]. apply partition_insert_eq.
Qed.

Lemma optimistic_update_from prev s :
  fromStatus ≠ toStatus →
  optimistic_update lead fromStatus toStatus prev = Some s →
  partition s fromStatus = without (_id lead) (partition prev fromStatus).
Proof.
  intros Hne. unfold optimistic_update.
  destruct (prev !! fromStatus) as [l|] eqn:E; [|done].
  cbn. intros [= <-]. rewrite partition_insert_ne by done.
  rewrite partition_insert_eq. by rewrite (partition_Some _ _ _ E).
Qed.

Lemma optimistic_update_other prev s k :
  k ≠ fromStatus → k ≠ toStatus →
  optimistic_update lead fromStatus toStatus prev = Some s →
  s !! k = prev !! k.
Proof.
  intros Hf Ht. unfold optimistic_update.
  destruct (prev !! fromStatus); [|done].
  cbn. intros [= <-]. by rewrite !lookup_insert_ne.
Qed.

Lemma rollback_error_rejected prev :
  rollback_error lead fromStatus toStatus prev
  = rollback_rejected lead fromStatus toStatus prev.
Proof. reflexivity. Qed.

Lemma rollback_rejected_is_Some prev :
  is_Some (rollback_rejected lead fromStatus toStatus prev)
  ↔ is_Some (prev !! toStatus).
Proof.
  unfold rollback_rejected. destruct (prev !! toStatus); cbn.
  - split; eauto.
  - split; intros []; done.
Qed.

Lemma rollback_rejected_to prev s :
  rollback_rejected lead fromStatus toStatus prev = Some s →
  partition s toStatus = without (_id lead) (partition prev toStatus).
Proof.
  unfold rollback_rejected.
  destruct (prev !! toStatus) as [l|] eqn:E; [|done].
  cbn. intros [= <-]. rewrite partition_insert_eq.
  by rewrite (partition_Some _ _ _ E).
Qed.

Lemma rollback_rejected_from prev s :
  fromStatus ≠ toStatus →
  rollback_rejected lead fromStatus toStatus prev = Some s →
  partition s fromStatus = partition prev fromStatus ++ [lead].
Proof.
  intros Hne. unfold rollback_rejected.
  destruct (prev !! toStatus); [|done].
  cbn. intros [= <-]. rewrite partition_insert_ne by done.
  apply partition_insert_eq.
Qed.

Lemma rollback_rejected_other prev s k :
  k ≠ fromStatus → k ≠ toStatus →
  rollback_rejected lead fromStatus toStatus prev = Some s →
  s !! k = prev !! k.
Proof.
  intros Hf Ht. unfold rollback_rejected.
  destruct (prev !! toStatus); [|done].
  cbn. intros [= <-]. by rewrite !lookup_insert_ne.
Qed.
End updaters.

#[global] Arguments optimistic_update : simpl never.
#[global] Arguments rollback_rejected : simpl never.
#[global] Arguments rollback_error : simpl never.

(** ** A drop, step by step *)

Section drop.
Context (p : Page) (lead : Lead) (fromStatus toStatus : string).

Lemma handleDrop_sync_same :
  handleDrop_sync p (handleDragStart lead toStatus) toStatus
  = Some (log same_category_warning p, Returned).
Proof. unfold handleDrop_sync. cbn. by rewrite decide_True. Qed.

Lemma handleDrop_sync_moved :
  fromStatus ≠ toStatus →
  is_Some (groupedLeads p !! fromStatus) →
  ∃ s1,
    optimistic_update lead fromStatus toStatus (groupedLeads p) = Some s1
    ∧ handleDrop_sync p (handleDragStart lead fromStatus) toStatus
      = Some ({| leads := leads p; groupedLeads := s1; error := error p;
                 console := console p;
                 requests := requests p ++ [update_request lead toStatus] |},
              AwaitingFetch).
Proof.
  intros Hne Hsome.
  apply (optimistic_update_is_Some lead fromStatus toStatus) in Hsome as [s1 Hs1].
  exists s1. split; [done |].
  unfold handleDrop_sync, setGroupedLeads. cbn.
  rewrite decide_False by done. by rewrite Hs1.
Qed.

Lemma handleDrop_sync_phase p1 phase :
  handleDrop_sync p (handleDragStart lead fromStatus) toStatus = Some (p1, phase) →
  match phase with
  | Returned => fromStatus = toStatus ∧ p1 = log same_category_warning p
  | AwaitingFetch =>
      fromStatus ≠ toStatus
      ∧ optimistic_update lead fromStatus toStatus (groupedLeads p)
        = Some (groupedLeads p1)
      ∧ console p1 = console p
  end.
Proof.
  unfold handleDrop_sync, setGroupedLeads. cbn. case_decide.
  - by intros [= <- <-].
  - destruct (optimistic_update _ _ _ _); cbn; [|done].
    by intros [= <- <-].
Qed.
End drop.

(** Both ways a drop on another column can be rolled back, with the page
    each run ends in. *)
Lemma handleDrop_rolled_back (p : Page) (lead : Lead)
    (fromStatus toStatus message : string) :
  fromStatus ≠ toStatus →
  is_Some (groupedLeads p !! fromStatus) →
  ∃ s1 s2,
    optimistic_update lead fromStatus toStatus (groupedLeads p) = Some s1
    ∧ rollback_rejected lead fromStatus toStatus s1 = Some s2
    ∧ handleDrop p (handleDragStart lead fromStatus) toStatus (Responded false)
      = Some {| leads := leads p; groupedLeads := s2; error := error p;
                console := console p ++ [server_failure_report];
                requests := requests p ++ [update_request lead toStatus] |}
    ∧ handleDrop p (handleDragStart lead fromStatus) toStatus (FetchThrew message)
      = Some {| leads := leads p; groupedLeads := s2; error := error p;
                console := console p ++ [fetch_error_report message];
                requests := requests p ++ [update_request lead toStatus] |}.
Proof.
  intros Hne Hsome.
  destruct (handleDrop_sync_moved p lead fromStatus toStatus Hne Hsome)
    as (s1 & Hs1 & Hrun).
  assert (is_Some (rollback_rejected lead fromStatus toStatus s1)) as [s2 Hs2].
  { apply rollback_rejected_is_Some.
    pose proof (optimistic_update_to _ _ _ _ _ Hs1) as Hto.
    unfold partition in Hto at 1. destruct (s1 !! toStatus); [eauto |].
    by destruct (partition (groupedLeads p) toStatus). }
  exists s1, s2. split; [done |]. split; [done |].
  unfold handleDrop. rewrite Hrun. cbn.
  unfold setGroupedLeads. cbn.
  change (rollback_error lead fromStatus toStatus s1)
    with (rollback_rejected lead fromStatus toStatus s1).
  rewrite Hs2. done.
Qed.

(** C1 (optimistic visibility).  A drop on another column of a card that is
    in its source column: when the synchronous part of [handleDrop] hands
    control back, with the request sent and not yet answered, the card
    with its status set to the destination is the last card of the
    destination column, and no card with its identifier is left in the
    source column. *)
Theorem optimistic_visibility (p : Page) (lead : Lead) (fromStatus toStatus : string) :
  fromStatus ≠ toStatus →
  present (_id lead) fromStatus (groupedLeads p) →
  ∃ p1,
    handleDrop_sync p (handleDragStart lead fromStatus) toStatus
      = Some (p1, AwaitingFetch)
    ∧ partition (groupedLeads p1) toStatus
      = partition (groupedLeads p) toStatus ++ [with_status lead toStatus]
    ∧ (∃ r, r ∈ partition (groupedLeads p1) toStatus
            ∧ _id r = _id lead ∧ status r = toStatus)
    ∧ ¬ present (_id lead) fromStatus (groupedLeads p1)
    ∧ requests p1 = requests p ++ [update_request lead toStatus].
Proof.
  intros Hne Hin.
  destruct (handleDrop_sync_moved p lead fromStatus toStatus Hne)
    as (s1 & Hs1 & Hrun); [by eapply present_is_Some |].
  eexists. split; [exact Hrun |]. cbn.
  pose proof (optimistic_update_to _ _ _ _ _ Hs1) as Hto.
  split; [done |]. split; [| split; [| done]].
  - exists (with_status lead toStatus). rewrite Hto, elem_of_app.
    split; [right; by apply list_elem_of_singleton | done].
  - unfold present.
    rewrite (optimistic_update_from _ _ _ _ _ Hne Hs1), ids_without. tauto.
Qed.

Lemma optimistic_visibility_witness :
  ∃ p1,
    handleDrop_sync loaded_page (handleDragStart L1 "New") "Demo"
      = Some (p1, AwaitingFetch)
    ∧ partition (groupedLeads p1) "Demo"
      = partition (groupedLeads loaded_page) "Demo" ++ [with_status L1 "Demo"]
    ∧ (∃ r, r ∈ partition (groupedLeads p1) "Demo"
            ∧ _id r = _id L1 ∧ status r = "Demo")
    ∧ ¬ present (_id L1) "New" (groupedLeads p1)
    ∧ requests p1 = requests loaded_page ++ [update_request L1 "Demo"].
Proof.
  apply (optimistic_visibility loaded_page L1 "New" "Demo").
  - done.
  - vm_compute. apply list_elem_of_here.
Defined.

(** C2 (rollback on rejection).  A drop on another column whose request is
    answered with [success = false]: once the answer is processed the
    dragged card, as it was picked up, is the last card of the source
    column and the only one there with its identifier, no card with its
    identifier is in the destination column, and the drop has written one
    entry to the console, the report of the server failure. *)
Theorem rollback_on_rejection (p : Page) (lead : Lead) (fromStatus toStatus : string) :
  fromStatus ≠ toStatus →
  is_Some (groupedLeads p !! fromStatus) →
  ∃ p',
    handleDrop p (handleDragStart lead fromStatus) toStatus (Responded false)
      = Some p'
    ∧ partition (groupedLeads p') fromStatus
      = without (_id lead) (partition (groupedLeads p) fromStatus) ++ [lead]
    ∧ (∀ r, r ∈ partition (groupedLeads p') fromStatus → _id r = _id lead → r = lead)
    ∧ ¬ present (_id lead) toStatus (groupedLeads p')
    ∧ console p' = console p ++ [server_failure_report].
Proof.
  intros Hne Hsome.
  destruct (handleDrop_sync_moved p lead fromStatus toStatus Hne Hsome)
    as (s1 & Hs1 & Hrun).
  assert (is_Some (rollback_rejected lead fromStatus toStatus s1)) as [s2 Hs2].
  { apply rollback_rejected_is_Some.
    pose proof (optimistic_update_to _ _ _ _ _ Hs1) as Hto.
    unfold partition in Hto at 1. destruct (s1 !! toStatus); [eauto |].
    by destruct (partition (groupedLeads p) toStatus). }
  assert (partition s2 fromStatus
          = without (_id lead) (partition (groupedLeads p) fromStatus) ++ [lead])
    as Hfrom.
  { rewrite (rollback_rejected_from _ _ _ _ _ Hne Hs2).
    by rewrite (optimistic_update_from _ _ _ _ _ Hne Hs1). }
  eexists. split.
  { unfold handleDrop. rewrite Hrun. cbn.
    unfold setGroupedLeads. cbn. rewrite Hs2. cbn. reflexivity. }
  cbn. split; [done |]. split; [| split; [| done]].
  - intros r. rewrite Hfrom, elem_of_app, elem_of_without, list_elem_of_singleton.
    intros [[_ Hr] | ->] Hid; done.
  - unfold present.
    rewrite (rollback_rejected_to _ _ _ _ _ Hs2), ids_without. tauto.
Qed.

Lemma rollback_on_rejection_witness :
  ∃ p',
    handleDrop loaded_page (handleDragStart L1 "New") "Demo" (Responded false)
      = Some p'
    ∧ partition (groupedLeads p') "New"
      = without (_id L1) (partition (groupedLeads loaded_page) "New") ++ [L1]
    ∧ (∀ r, r ∈ partition (groupedLeads p') "New" → _id r = _id L1 → r = L1)
    ∧ ¬ present (_id L1) "Demo" (groupedLeads p')
    ∧ console p' = console loaded_page ++ [server_failure_report].
Proof.
  apply (rollback_on_rejection loaded_page L1 "New" "Demo").
  - done.
  - vm_compute. eauto.
Defined.

(** C3 (rollback on transport error).  The updater of the [catch] block is
    the same function of the store as the updater of the rejection branch;
    resumed on any page, a request that threw leaves the same grouped leads
    as a request answered with [success = false]; and for a whole drop on
    another column both runs end with the same grouped leads, the first
    having written the report of the fetch error to the console and the
    second the report of the server failure, and nothing else. *)
Theorem rollback_on_transport_error (p : Page) (lead : Lead)
    (fromStatus toStatus message : string) :
  fromStatus ≠ toStatus →
  is_Some (groupedLeads p !! fromStatus) →
  (∀ l f t s, rollback_error l f t s = rollback_rejected l f t s)
  ∧ (∀ q e t,
       groupedLeads <$> handleDrop_resume q e t (FetchThrew message)
       = groupedLeads <$> handleDrop_resume q e t (Responded false))
  ∧ ∃ pe pr,
      handleDrop p (handleDragStart lead fromStatus) toStatus (FetchThrew message)
        = Some pe
      ∧ handleDrop p (handleDragStart lead fromStatus) toStatus (Responded false)
        = Some pr
      ∧ groupedLeads pe = groupedLeads pr
      ∧ console pe = console p ++ [fetch_error_report message]
      ∧ console pr = console p ++ [server_failure_report].
Proof.
  intros Hne Hsome.
  split; [intros; apply rollback_error_rejected |]. split.
  { intros q e t. unfold handleDrop_resume, setGroupedLeads. cbn.
    rewrite rollback_error_rejected.
    by destruct (rollback_rejected _ _ _ _). }
  destruct (handleDrop_rolled_back p lead fromStatus toStatus message Hne Hsome)
    as (s1 & s2 & _ & _ & Hpr & Hpe).
  eexists _, _. split; [exact Hpe |]. split; [exact Hpr |]. done.
Qed.

Lemma rollback_on_transport_error_witness :
  (∀ l f t s, rollback_error l f t s = rollback_rejected l f t s)
  ∧ (∀ q e t,
       groupedLeads <$> handleDrop_resume q e t (FetchThrew "timeout")
       = groupedLeads <$> handleDrop_resume q e t (Responded false))
  ∧ ∃ pe pr,
      handleDrop loaded_page (handleDragStart L1 "New") "Demo" (FetchThrew "timeout")
        = Some pe
      ∧ handleDrop loaded_page (handleDragStart L1 "New") "Demo" (Responded false)
        = Some pr
      ∧ groupedLeads pe = groupedLeads pr
      ∧ console pe = console loaded_page ++ [fetch_error_report "timeout"]
      ∧ console pr = console loaded_page ++ [server_failure_report].
Proof.
  apply (rollback_on_transport_error loaded_page L1 "New" "Demo" "timeout").
  - done.
  - vm_compute. eauto.
Defined.

(** C4 (drop on the same column).  A drop on the column the card was
    picked from returns at once, whatever the server would have answered:
    the grouped leads (and the rest of the component state) are those
    before the drop, no request has been sent, and the console has
    received the warning that a card cannot be dropped into the same
    category, and nothing else. *)
Theorem same_column_drop (p : Page) (lead : Lead) (toStatus : string)
    (o : FetchOutcome) :
  ∃ p',
    handleDrop p (handleDragStart lead toStatus) toStatus o = Some p'
    ∧ handleDrop_sync p (handleDragStart lead toStatus) toStatus = Some (p', Returned)
    ∧ groupedLeads p' = groupedLeads p
    ∧ leads p' = leads p
    ∧ error p' = error p
    ∧ requests p' = requests p
    ∧ console p' = console p ++ [same_category_warning].
Proof.
  exists (log same_category_warning p).
  unfold handleDrop. rewrite handleDrop_sync_same. cbn. done.
Qed.

(** C6 (confirmation changes nothing).  When the synchronous part of a drop
    has applied the optimistic move and is waiting for the request, an
    answer with [success = true] leaves the page as it is: the run of the
    whole drop ends in the state reached right after the optimistic move,
    and resuming on any later state of the page returns that state. *)
Theorem success_keeps_optimistic_state (p p1 : Page) (e : DragEvent)
    (toStatus : string) :
  handleDrop_sync p e toStatus = Some (p1, AwaitingFetch) →
  handleDrop p e toStatus (Responded true) = Some p1
  ∧ ∀ q, handleDrop_resume q e toStatus (Responded true) = Some q.
Proof.
  intros Hrun. unfold handleDrop. rewrite Hrun. cbn. done.
Qed.

Lemma success_keeps_optimistic_state_witness :
  ∃ p1,
    handleDrop_sync loaded_page (handleDragStart L1 "New") "Demo"
      = Some (p1, AwaitingFetch)
    ∧ handleDrop loaded_page (handleDragStart L1 "New") "Demo" (Responded true)
      = Some p1
    ∧ ∀ q, handleDrop_resume q (handleDragStart L1 "New") "Demo" (Responded true)
           = Some q.
Proof.
  eexists. split; [vm_compute; reflexivity |].
  apply (success_keeps_optimistic_state loaded_page _ (handleDragStart L1 "New") "Demo").
  vm_compute. reflexivity.
Defined.

(** ** A move of a card that is not in its source column *)

(** The lookup of the source column is not guarded: without an entry for
    [fromStatus] the updater of the optimistic move throws. *)
Lemma optimistic_update_no_source_column (lead : Lead)
    (fromStatus toStatus : string) (prev : Store) :
  prev !! fromStatus = None →
  optimistic_update lead fromStatus toStatus prev = None.
Proof. intros E. unfold optimistic_update. by rewrite E. Qed.

(** C7, the claim as stated, at a concrete drop: card L3 sits in "Demo";
    a drop that names "New" as its source and "Proposal" as its
    destination is not refused.  The handler goes on to the request, the
    card is added to "Proposal" (and stays in "Demo"), and the console
    receives nothing. *)
Lemma absent_id_drop_not_refused :
  ¬ present "L3" "New" (groupedLeads loaded_page)
  ∧ ∃ p1,
      handleDrop_sync loaded_page (handleDragStart L3 "New") "Proposal"
        = Some (p1, AwaitingFetch)
      ∧ console p1 = console loaded_page
      ∧ groupedLeads p1 ≠ groupedLeads loaded_page
      ∧ partition (groupedLeads p1) "Proposal" = [with_status L3 "Proposal"]
      ∧ partition (groupedLeads p1) "Demo" = [L3]
      ∧ requests p1 = requests loaded_page ++ [update_request L3 "Proposal"].
Proof.
  split; [apply (bool_decide_unpack _); vm_compute; exact I |].
  eexists. split; [vm_compute; reflexivity |].
  repeat split; try (vm_compute; reflexivity).
  intros E. apply (f_equal (λ s, partition s "Proposal")) in E.
  vm_compute in E. discriminate E.
Qed.

(** C7, amended.  A drop on another column whose card is not in the source
    column, the source column having an entry: nothing is reported and the
    move goes ahead.  The source column is left as it is, the card with its
    status set to the destination is appended to the destination column,
    the console is unchanged and the update request is sent. *)
Theorem absent_id_move_proceeds (p : Page) (lead : Lead)
    (fromStatus toStatus : string) :
  fromStatus ≠ toStatus →
  is_Some (groupedLeads p !! fromStatus) →
  ¬ present (_id lead) fromStatus (groupedLeads p) →
  ∃ p1,
    handleDrop_sync p (handleDragStart lead fromStatus) toStatus
      = Some (p1, AwaitingFetch)
    ∧ console p1 = console p
    ∧ partition (groupedLeads p1) fromStatus = partition (groupedLeads p) fromStatus
    ∧ partition (groupedLeads p1) toStatus
      = partition (groupedLeads p) toStatus ++ [with_status lead toStatus]
    ∧ requests p1 = requests p ++ [update_request lead toStatus].
Proof.
  intros Hne Hsome Habsent.
  destruct (handleDrop_sync_moved p lead fromStatus toStatus Hne Hsome)
    as (s1 & Hs1 & Hrun).
  eexists. split; [exact Hrun |]. cbn.
  split; [done |]. split; [| split; [| done]].
  - rewrite (optimistic_update_from _ _ _ _ _ Hne Hs1).
    by apply without_absent.
  - exact (optimistic_update_to _ _ _ _ _ Hs1).
Qed.

Lemma absent_id_move_proceeds_witness :
  ∃ p1,
    handleDrop_sync loaded_page (handleDragStart L3 "New") "Proposal"
      = Some (p1, AwaitingFetch)
    ∧ console p1 = console loaded_page
    ∧ partition (groupedLeads p1) "New" = partition (groupedLeads loaded_page) "New"
    ∧ partition (groupedLeads p1) "Proposal"
      = partition (groupedLeads loaded_page) "Proposal" ++ [with_status L3 "Proposal"]
    ∧ requests p1 = requests loaded_page ++ [update_request L3 "Proposal"].
Proof.
  apply (absent_id_move_proceeds loaded_page L3 "New" "Proposal").
  - done.
  - vm_compute. eauto.
  - apply (bool_decide_unpack _). vm_compute. exact I.
Defined.

(** ** Initial load *)

(** C9, the claim as stated, at a concrete answer: the server answers
    [{ success: false, message: "Database unavailable" }]; the grouped
    leads stay empty, but the text put in the [error] state, which the page
    displays, is not that message. *)
Lemma load_failure_message_replaced :
  let p := fetchLeads (LoadResponded false (fetched_array []) "Database unavailable") initial_page in
  groupedLeads p = ∅
  ∧ error p = "Failed to fetch leads"
  ∧ error p ≠ "Database unavailable".
Proof. cbn. done. Qed.

(** C9, amended.  An initial load answered with [success = false] leaves
    the leads and the grouped leads as they were, empty on the page just
    mounted; the message of the answer is written to the console by the
    [catch] of [getAllLeads], and the text shown to the user is the fixed
    message of the error thrown by that [catch]. *)
Theorem load_failure (data : Fetched) (message : string) (p : Page) :
  let p' := fetchLeads (LoadResponded false data message) p in
  groupedLeads p' = groupedLeads p
  ∧ leads p' = leads p
  ∧ error p' = "Failed to fetch leads"
  ∧ console p' = console p ++ [console_error ["Error fetching leads:"; message]]
  ∧ groupedLeads (fetchLeads (LoadResponded false data message) initial_page) = ∅
  ∧ leads (fetchLeads (LoadResponded false data message) initial_page)
    = fetched_array [].
Proof. cbn. done. Qed.

(** ** A destination column without an entry *)

(** C10.  The destination of either updater is read through [|| []]: when
    the grouped leads have no entry for it (and have one for the column the
    card is taken from), the optimistic move succeeds and creates the
    destination column with the moved card as its only card, and so do both
    rollbacks for the column the card goes back to. *)
Theorem updaters_create_missing_column (lead : Lead)
    (fromStatus toStatus : string) (prev : Store) :
  (is_Some (prev !! fromStatus) → prev !! toStatus = None →
   ∃ s, optimistic_update lead fromStatus toStatus prev = Some s
        ∧ s !! toStatus = Some [with_status lead toStatus])
  ∧ (is_Some (prev !! toStatus) → prev !! fromStatus = None →
     ∃ s, rollback_rejected lead fromStatus toStatus prev = Some s
          ∧ rollback_error lead fromStatus toStatus prev = Some s
          ∧ s !! fromStatus = Some [lead]).
Proof.
  split.
  - intros [l Hl] Hto.
    assert (fromStatus ≠ toStatus) by congruence.
    unfold optimistic_update, partition. rewrite Hl, Hto. cbn.
    eexists. split; [reflexivity |]. by rewrite lookup_insert_eq.
  - intros [l Hl] Hfrom.
    assert (fromStatus ≠ toStatus) by congruence.
    unfold rollback_error, rollback_rejected, partition. rewrite Hl, Hfrom. cbn.
    eexists. split; [reflexivity |]. split; [reflexivity |].
    rewrite lookup_insert_ne by done. by rewrite lookup_insert_eq.
Qed.

Lemma updaters_create_missing_column_witness :
  (∃ s, optimistic_update L1 "New" "Proposal" (grouped [L1; L2; L3]) = Some s
        ∧ s !! "Proposal" = Some [with_status L1 "Proposal"])
  ∧ (∃ s, rollback_rejected L3 "Decided" "Demo" (grouped [L1; L2; L3]) = Some s
          ∧ rollback_error L3 "Decided" "Demo" (grouped [L1; L2; L3]) = Some s
          ∧ s !! "Decided" = Some [L3]).
Proof.
  split.
  - apply (updaters_create_missing_column L1 "New" "Proposal" (grouped [L1; L2; L3])).
    + vm_compute. eauto.
    + vm_compute. reflexivity.
  - apply (updaters_create_missing_column L3 "Decided" "Demo" (grouped [L1; L2; L3])).
    + vm_compute. eauto.
    + vm_compute. reflexivity.
Defined.

(** ** A move followed by the move back *)

(** C8, the claim as stated, at a concrete store: after L1 has been
    dropped on "Demo", the card in "Demo" dropped on "Proposal" before the
    first answer, and the first request rejected, L1 is in "New" and a
    card with its identifier is in "Proposal".  Moving L1 from "New" to
    "Proposal" and back does not restore the membership: the filter of the
    rollback removes every card with the identifier from "Proposal", which
    held one before the two moves and holds none after. *)
Lemma move_back_empties_destination :
  ∃ p1 p2 p3 s1 s2,
    handleDrop_sync loaded_page (handleDragStart L1 "New") "Demo"
      = Some (p1, AwaitingFetch)
    ∧ handleDrop_sync p1 (handleDragStart (with_status L1 "Demo") "Demo") "Proposal"
      = Some (p2, AwaitingFetch)
    ∧ handleDrop_resume p2 (handleDragStart L1 "New") "Demo" (Responded false)
      = Some p3
    ∧ L1 ∈ partition (groupedLeads p3) "New"
    ∧ ids (partition (groupedLeads p3) "Proposal") = ["L1"]
    ∧ optimistic_update L1 "New" "Proposal" (groupedLeads p3) = Some s1
    ∧ rollback_rejected L1 "New" "Proposal" s1 = Some s2
    ∧ ids (partition s2 "New") = ["L2"; "L1"]
    ∧ ids (partition s2 "Proposal") = [].
Proof.
  eexists _, _, _, _, _.
  split; [vm_compute; reflexivity |].
  split; [vm_compute; reflexivity |].
  split; [vm_compute; reflexivity |].
  split; [apply (bool_decide_unpack _); vm_compute; exact I |].
  split; [vm_compute; reflexivity |].
  split; [vm_compute; reflexivity |].
  split; [vm_compute; reflexivity |].
  split; vm_compute; reflexivity.
Qed.

(** C8, amended.  In a store where a card is in column A, with status A,
    and no card with its identifier is in column B, the optimistic move
    from A to B followed by the rollback (either of the two) puts the
    card, as it was, at the end of A: every other card of A keeps its
    place, every other column shows the cards it showed before, so every
    column holds the identifiers it held before, and the card is again the
    only one with its identifier in A, with status A. *)
Theorem move_then_move_back (prev : Store) (lead : Lead) (A B : string) :
  A ≠ B →
  lead ∈ partition prev A →
  status lead = A →
  ¬ present (_id lead) B prev →
  ∃ s1 s2,
    optimistic_update lead A B prev = Some s1
    ∧ rollback_rejected lead A B s1 = Some s2
    ∧ rollback_error lead A B s1 = Some s2
    ∧ partition s2 A = without (_id lead) (partition prev A) ++ [lead]
    ∧ (∀ k, k ≠ A → partition s2 k = partition prev k)
    ∧ (∀ k j, j ∈ ids (partition s2 k) ↔ j ∈ ids (partition prev k))
    ∧ (∀ r, r ∈ partition s2 A → _id r = _id lead → r = lead ∧ status r = A).
Proof.
  intros Hne Hin Hstatus Hfresh.
  assert (is_Some (prev !! A)) as Hsome.
  { apply (present_is_Some (_id lead)). unfold present, ids.
    by apply list_elem_of_fmap_2. }
  apply (optimistic_update_is_Some lead A B) in Hsome as [s1 Hs1].
  assert (is_Some (rollback_rejected lead A B s1)) as [s2 Hs2].
  { apply rollback_rejected_is_Some.
    pose proof (optimistic_update_to _ _ _ _ _ Hs1) as Hto.
    unfold partition in Hto at 1. destruct (s1 !! B); [eauto |].
    by destruct (partition prev B). }
  assert (partition s2 A = without (_id lead) (partition prev A) ++ [lead]) as HA.
  { rewrite (rollback_rejected_from _ _ _ _ _ Hne Hs2).
    by rewrite (optimistic_update_from _ _ _ _ _ Hne Hs1). }
  assert (partition s2 B = partition prev B) as HB.
  { rewrite (rollback_rejected_to _ _ _ _ _ Hs2).
    rewrite (optimistic_update_to _ _ _ _ _ Hs1).
    unfold without. rewrite filter_app, filter_cons_False, filter_nil, app_nil_r.
    - by apply without_absent.
    - cbn. tauto. }
  assert (∀ k, k ≠ A → partition s2 k = partition prev k) as Hother.
  { intros k HkA. destruct (decide (k = B)) as [-> | HkB]; [done |].
    unfold partition.
    rewrite (rollback_rejected_other _ _ _ _ _ _ HkA HkB Hs2).
    by rewrite (optimistic_update_other _ _ _ _ _ _ HkA HkB Hs1). }
  exists s1, s2.
  split; [done |]. split; [done |]. split; [done |]. split; [done |].
  split; [done |]. split.
  - intros k j. destruct (decide (k = A)) as [-> | HkA]; [| by rewrite Hother].
    rewrite HA, ids_app, elem_of_app, ids_without. split.
    + intros [[Hj _] | Hj]; [done |].
      apply list_elem_of_singleton in Hj as ->.
      by apply list_elem_of_fmap_2.
    + intros Hj.
      destruct (decide (j = _id lead)) as [-> | Hid]; [right | left; done].
      by apply list_elem_of_singleton.
  - intros r. rewrite HA, elem_of_app, elem_of_without, list_elem_of_singleton.
    intros [[_ Hr] | ->]; done.
Qed.

Lemma move_then_move_back_witness :
  ∃ s1 s2,
    optimistic_update L1 "New" "Demo" (grouped [L1; L2; L3]) = Some s1
    ∧ rollback_rejected L1 "New" "Demo" s1 = Some s2
    ∧ rollback_error L1 "New" "Demo" s1 = Some s2
    ∧ partition s2 "New"
      = without (_id L1) (partition (grouped [L1; L2; L3]) "New") ++ [L1]
    ∧ (∀ k, k ≠ "New" → partition s2 k = partition (grouped [L1; L2; L3]) k)
    ∧ (∀ k j, j ∈ ids (partition s2 k)
              ↔ j ∈ ids (partition (grouped [L1; L2; L3]) k))
    ∧ (∀ r, r ∈ partition s2 "New" → _id r = _id L1 → r = L1 ∧ status r = "New").
Proof.
  apply (move_then_move_back (grouped [L1; L2; L3]) L1 "New" "Demo").
  - done.
  - vm_compute. apply list_elem_of_here.
  - reflexivity.
  - apply (bool_decide_unpack _). vm_compute. exact I.
Defined.

(** The card does not get its place back: L1 was first in "New" and is
    last after the move to "Demo" and back. *)
Example move_back_reorders :
  partition (groupedLeads loaded_page) "New" = [L1; L2]
  ∧ (λ p, partition (groupedLeads p) "New")
      <$> handleDrop loaded_page (handleDragStart L1 "New") "Demo" (Responded false)
    = Some [L2; L1].
Proof. split; vm_compute; reflexivity. Qed.

(** ** Every card in one column *)

Section grouping.
Implicit Types (acc : Store) (k : string) (fetched : list Lead).

Lemma partition_group_into acc lead k :
  partition (group_into acc lead) k
  = if decide (status lead = k) then partition acc k ++ [lead] else partition acc k.
Proof.
  unfold group_into. case_decide as Hk.
  - subst k. rewrite partition_insert_eq.
    destruct (acc !! status lead) eqn:E; [done |].
    rewrite partition_insert_eq. unfold partition. by rewrite E.
  - rewrite partition_insert_ne by done.
    destruct (acc !! status lead); [done |].
    by rewrite partition_insert_ne.
Qed.

Lemma partition_foldl_group_into fetched acc k :
  partition (foldl group_into acc fetched) k
  = partition acc k ++ filter (λ x, status x = k) fetched.
Proof.
  revert acc. induction fetched as [|lead fetched IH]; intros acc.
  - cbn. by rewrite app_nil_r.
  - change (foldl group_into acc (lead :: fetched))
      with (foldl group_into (group_into acc lead) fetched).
    rewrite IH, partition_group_into, filter_cons.
    case_decide; [by rewrite <- app_assoc | done].
Qed.

Lemma reduce_leads_groupable fetched acc :
  groupable fetched →
  reduce_leads acc fetched = Some (foldl group_into acc fetched).
Proof.
  unfold groupable. revert acc.
  induction fetched as [|lead fetched IH]; intros acc; [done |].
  intros [Hlead Hrest]%Forall_cons. cbn. unfold group_step.
  rewrite decide_False by done. cbn. by apply IH.
Qed.

Lemma reduce_leads_not_groupable fetched acc :
  ¬ groupable fetched → reduce_leads acc fetched = None.
Proof.
  unfold groupable. revert acc.
  induction fetched as [|lead fetched IH]; intros acc Hno.
  - destruct Hno. constructor.
  - cbn. unfold group_step. case_decide; [done |]. cbn.
    apply IH. intros Hrest. apply Hno. by constructor.
Qed.

Lemma grouped_groupable fetched :
  groupable fetched → grouped fetched = foldl group_into ∅ fetched.
Proof. intros H. unfold grouped. by rewrite reduce_leads_groupable. Qed.

Lemma grouped_not_groupable fetched :
  ¬ groupable fetched → grouped fetched = ∅.
Proof. intros H. unfold grouped. by rewrite reduce_leads_not_groupable. Qed.

Lemma partition_grouped fetched k :
  groupable fetched →
  partition (grouped fetched) k = filter (λ x, status x = k) fetched.
Proof.
  intros H. rewrite grouped_groupable, partition_foldl_group_into by done.
  unfold partition. by rewrite lookup_empty.
Qed.

Lemma present_grouped fetched id k :
  groupable fetched →
  present id k (grouped fetched)
  ↔ ∃ x, x ∈ fetched ∧ _id x = id ∧ status x = k.
Proof.
  intros H. unfold present, ids. rewrite partition_grouped, list_elem_of_fmap by done.
  split.
  - intros (x & -> & [Hk Hx]%list_elem_of_filter). eauto.
  - intros (x & Hx & <- & Hk). exists x. by rewrite list_elem_of_filter.
Qed.

Lemma NoDup_ids_inj fetched x y :
  NoDup (ids fetched) → x ∈ fetched → y ∈ fetched → _id x = _id y → x = y.
Proof.
  unfold ids. induction fetched as [|z fetched IH]; [by intros _ ?%elem_of_nil |].
  rewrite fmap_cons, NoDup_cons.
  intros [Hz Hnd] [-> | Hx]%elem_of_cons [-> | Hy]%elem_of_cons Hid; [done | | | eauto].
  - destruct Hz. rewrite Hid. by apply list_elem_of_fmap_2.
  - destruct Hz. rewrite <- Hid. by apply list_elem_of_fmap_2.
Qed.

Lemma grouped_exactly_one fetched id :
  groupable fetched → NoDup (ids fetched) → id ∈ ids fetched →
  in_exactly_one_partition (grouped fetched) id.
Proof.
  intros Hg Hnd (x & -> & Hx)%list_elem_of_fmap.
  exists (status x). split.
  - apply present_grouped; eauto.
  - intros k' (y & Hy & Hid & <-)%present_grouped; [| done].
    by rewrite (NoDup_ids_inj fetched y x Hnd Hy Hx Hid).
Qed.
End grouping.

Section moves.
Implicit Types (s : Store) (k a b : string).

Lemma present_app_singleton s k l r j :
  partition s k = l ++ [r] → present j k s ↔ j ∈ ids l ∨ j = _id r.
Proof.
  intros E. unfold present. rewrite E, ids_app, elem_of_app.
  unfold ids at 2. cbn. by rewrite list_elem_of_singleton.
Qed.

Lemma optimistic_update_moved lead a b s s' :
  a ≠ b → optimistic_update lead a b s = Some s' → moved (_id lead) a b s s'.
Proof.
  intros Hne Hs' j k. repeat case_decide; subst.
  - by rewrite (present_app_singleton _ _ _ _ _ (optimistic_update_to _ _ _ _ _ Hs')).
  - unfold present. rewrite (optimistic_update_from _ _ _ _ _ Hne Hs').
    apply ids_without.
  - unfold present, partition.
    by rewrite (optimistic_update_other lead a b s s' k).
Qed.

Lemma rollback_rejected_moved lead a b s s' :
  a ≠ b → rollback_rejected lead a b s = Some s' → moved (_id lead) b a s s'.
Proof.
  intros Hne Hs' j k. repeat case_decide; subst.
  - by rewrite (present_app_singleton _ _ _ _ _
                  (rollback_rejected_from _ _ _ _ _ Hne Hs')).
  - unfold present. rewrite (rollback_rejected_to _ _ _ _ _ Hs').
    apply ids_without.
  - unfold present, partition.
    by rewrite (rollback_rejected_other lead a b s s' k).
Qed.

Lemma moved_exactly_one id a b s s' j :
  a ≠ b → present id a s → moved id a b s s' →
  in_exactly_one_partition s j → in_exactly_one_partition s' j.
Proof.
  intros Hne Hin Hmoved (k0 & Hk0 & Huniq).
  destruct (decide (j = id)) as [-> | Hj].
  - assert (k0 = a) as -> by (symmetry; by apply Huniq).
    exists b. split.
    + apply Hmoved. rewrite decide_True by done. by right.
    + intros k' Hk'. apply Hmoved in Hk'. repeat case_decide; [done | tauto |].
      by apply Huniq in Hk'.
  - assert (∀ k, present j k s' ↔ present j k s) as Hsame.
    { intros k. rewrite (Hmoved j k). repeat case_decide; subst; tauto. }
    exists k0. split; [by apply Hsame |].
    intros k' Hk'. apply Huniq. by apply Hsame.
Qed.

Lemma moved_known id a b s s' j k :
  present id a s → moved id a b s s' →
  present j k s' → ∃ k', present j k' s.
Proof.
  intros Hin Hmoved Hj. apply Hmoved in Hj.
  repeat case_decide; subst; [| destruct Hj; eauto | eauto].
  destruct Hj as [Hj | ->]; eauto.
Qed.

Lemma move_step_moved s s' :
  move_step s s' →
  ∃ id a b, a ≠ b ∧ present id a s ∧ moved id a b s s'.
Proof.
  intros [lead f t s1 Hne Hin Hs1 | lead f t s1 Hne Hin Hs1 | lead f t s1 Hne Hin Hs1].
  - exists (_id lead), f, t. eauto using optimistic_update_moved.
  - exists (_id lead), t, f. eauto using rollback_rejected_moved.
  - exists (_id lead), t, f. eauto using rollback_rejected_moved.
Qed.
End moves.

(** Two fetched leads with one identifier and different statuses are
    grouped under both statuses: the grouping alone puts an identifier in
    one column only when the identifiers of the load are distinct. *)
Example grouped_duplicate_ids :
  present "L1" "New" (grouped [L1; with_status L1 "Demo"])
  ∧ present "L1" "Demo" (grouped [L1; with_status L1 "Demo"]).
Proof. split; apply (bool_decide_unpack _); vm_compute; exact I. Qed.

(** A load with a lead whose status is an inherited name: the reduce
    throws, the grouped leads stay empty and no identifier of the load is
    in any column; the message of the TypeError is the error shown. *)
Example grouping_throws_on_inherited_name :
  let p := fetchLeads (LoadResponded true (fetched_array [L1; L5]) "") initial_page in
  ¬ groupable [L1; L5]
  ∧ groupedLeads p = ∅
  ∧ grouped [L1; L5] = ∅
  ∧ leads p = fetched_array [L1; L5]
  ∧ error p = push_TypeError_message.
Proof.
  cbn zeta. split; [apply (bool_decide_unpack _); vm_compute; exact I |].
  repeat split; vm_compute; reflexivity.
Qed.

(** C5, the claim as stated, at a concrete run: the load groups L1, L2
    under "New" and L3 under "Demo"; L1 is dropped on "Demo"; before the
    answer arrives the card now shown in "Demo" is dropped on "Proposal";
    then the first request is answered with [success = false].  The
    rollback of the first drop puts L1 back in "New" while it stays in
    "Proposal": the identifier is in two columns. *)
Lemma interleaved_drops_duplicate_card :
  NoDup (ids [L1; L2; L3])
  ∧ ∃ p1 p2 p3,
      handleDrop_sync loaded_page (handleDragStart L1 "New") "Demo"
        = Some (p1, AwaitingFetch)
      ∧ with_status L1 "Demo" ∈ partition (groupedLeads p1) "Demo"
      ∧ handleDrop_sync p1 (handleDragStart (with_status L1 "Demo") "Demo") "Proposal"
        = Some (p2, AwaitingFetch)
      ∧ handleDrop_resume p2 (handleDragStart L1 "New") "Demo" (Responded false)
        = Some p3
      ∧ present "L1" "New" (groupedLeads p3)
      ∧ present "L1" "Proposal" (groupedLeads p3)
      ∧ ¬ in_exactly_one_partition (groupedLeads p3) "L1".
Proof.
  split; [apply (bool_decide_unpack _); vm_compute; exact I |].
  eexists _, _, _.
  split; [vm_compute; reflexivity |].
  split; [apply (bool_decide_unpack _); vm_compute; exact I |].
  split; [vm_compute; reflexivity |].
  split; [vm_compute; reflexivity |].
  split; [| split]; [ |  | intros (k & _ & Huniq)].
  - apply (bool_decide_unpack _). vm_compute. exact I.
  - apply (bool_decide_unpack _). vm_compute. exact I.
  - assert (k = "New") as Hk1 by (symmetry; apply Huniq;
      apply (bool_decide_unpack _); vm_compute; exact I).
    assert (k = "Proposal") as Hk2 by (symmetry; apply Huniq;
      apply (bool_decide_unpack _); vm_compute; exact I).
    congruence.
Qed.

(** C5, amended.  The leads of the initial load having pairwise distinct
    identifiers and no status that is a name the empty accumulator of the
    grouping inherits (the grouping then does not throw; the five column
    names are not such names), after any sequence of moves each of which
    takes its card from a column the card is in (an optimistic move of a
    card of the source column, a rollback of a card still in the
    destination column), every identifier of the load is in one column of
    the grouped leads and in no other, and no other identifier is in any
    column. *)
Theorem partition_disjointness (fetched : list Lead) (s : Store) :
  groupable fetched →
  NoDup (ids fetched) →
  rtc move_step (grouped fetched) s →
  (∀ id, id ∈ ids fetched → in_exactly_one_partition s id)
  ∧ (∀ id k, present id k s → id ∈ ids fetched).
Proof.
  intros Hgroupable Hnd Hreach.
  revert s Hreach.
  apply (rtc_ind_r
    (λ s, (∀ id, id ∈ ids fetched → in_exactly_one_partition s id)
          ∧ (∀ id k, present id k s → id ∈ ids fetched))).
  - split; [intros; by apply grouped_exactly_one |].
    intros id k (x & Hx & <- & _)%present_grouped; [| done].
    by apply list_elem_of_fmap_2.
  - intros s1 s2 Hreach Hstep [IHone IHknown].
    destruct (move_step_moved _ _ Hstep) as (id & a & b & Hne & Hin & Hmoved).
    split.
    + intros j Hj. eapply moved_exactly_one; eauto.
    + intros j k Hj.
      destruct (moved_known _ _ _ _ _ _ _ Hin Hmoved Hj) as [k' Hk']. eauto.
Qed.

Lemma partition_disjointness_witness :
  (∀ id, id ∈ ids [L1; L2; L3] → in_exactly_one_partition moved_and_back id)
  ∧ (∀ id k, present id k moved_and_back → id ∈ ids [L1; L2; L3]).
Proof.
  apply (partition_disjointness [L1; L2; L3] moved_and_back).
  - apply (bool_decide_unpack _). vm_compute. exact I.
  - apply (bool_decide_unpack _). vm_compute. exact I.
  - eapply rtc_l; [| eapply rtc_l; [| apply rtc_refl]].
    + apply (move_apply _ L1 "New" "Demo"
               (default ∅ (optimistic_update L1 "New" "Demo" (grouped [L1; L2; L3])))).
      * done.
      * apply (bool_decide_unpack _). vm_compute. exact I.
      * vm_compute. reflexivity.
    + apply (move_rollback_rejected _ L1 "New" "Demo").
      * done.
      * apply (bool_decide_unpack _). vm_compute. exact I.
      * vm_compute. reflexivity.
Defined.

(** A whole drop of a card that is in its source column is such a
    sequence of moves: none (same column), one (confirmed), or two
    (rolled back). *)
Lemma handleDrop_moves (p p' : Page) (lead : Lead) (fromStatus toStatus : string)
    (o : FetchOutcome) :
  present (_id lead) fromStatus (groupedLeads p) →
  handleDrop p (handleDragStart lead fromStatus) toStatus o = Some p' →
  rtc move_step (groupedLeads p) (groupedLeads p').
Proof.
  intros Hin. unfold handleDrop.
  destruct (handleDrop_sync p (handleDragStart lead fromStatus) toStatus)
    as [[p1 phase]|] eqn:Hsync; [|done].
  apply handleDrop_sync_phase in Hsync. cbn.
  destruct phase.
  - destruct Hsync as [_ ->]. intros [= <-]. cbn. apply rtc_refl.
  - destruct Hsync as (Hne & Hs1 & _).
    assert (move_step (groupedLeads p) (groupedLeads p1)) as Hstep1
      by (by eapply move_apply).
    assert (present (_id lead) toStatus (groupedLeads p1)) as Hin1.
    { apply (optimistic_update_moved _ _ _ _ _ Hne Hs1).
      rewrite decide_True by done. by right. }
    unfold handleDrop_resume, setGroupedLeads. cbn.
    destruct o as [[] | message].
    + intros [= <-]. by apply rtc_once.
    + destruct (rollback_rejected lead fromStatus toStatus (groupedLeads p1))
        as [s2|] eqn:Hs2; [|done].
      cbn. intros [= <-]. cbn.
      eapply rtc_l; [exact Hstep1 |]. apply rtc_once.
      by eapply move_rollback_rejected.
    + destruct (rollback_error lead fromStatus toStatus (groupedLeads p1))
        as [s2|] eqn:Hs2; [|done].
      cbn. intros [= <-]. cbn.
      eapply rtc_l; [exact Hstep1 |]. apply rtc_once.
      by eapply move_rollback_error.
Qed.

(** ** The scenarios of the board *)

(** L1 is moved from "New" to "Demo" and the server confirms. *)
Example scenario_confirmed :
  (λ p, (partition (groupedLeads p) "New", partition (groupedLeads p) "Demo",
         console p))
    <$> handleDrop loaded_page (handleDragStart L1 "New") "Demo" (Responded true)
  = Some ([L2], [L3; with_status L1 "Demo"], []).
Proof. vm_compute. reflexivity. Qed.

(** The same drop, declined by the server. *)
Example scenario_rejected :
  (λ p, (partition (groupedLeads p) "New", partition (groupedLeads p) "Demo",
         console p))
    <$> handleDrop loaded_page (handleDragStart L1 "New") "Demo" (Responded false)
  = Some ([L2; L1], [L3], [server_failure_report]).
Proof. vm_compute. reflexivity. Qed.

(** The same drop, the request failing. *)
Example scenario_unconfirmed :
  (λ p, (partition (groupedLeads p) "New", partition (groupedLeads p) "Demo",
         console p))
    <$> handleDrop loaded_page (handleDragStart L1 "New") "Demo" (FetchThrew "offline")
  = Some ([L2; L1], [L3], [fetch_error_report "offline"]).
Proof. vm_compute. reflexivity. Qed.

(** L1 is dropped on the column it came from. *)
Example scenario_same_column :
  (λ p, (groupedLeads p, requests p, console p))
    <$> handleDrop loaded_page (handleDragStart L1 "New") "New" (Responded true)
  = Some (groupedLeads loaded_page, requests loaded_page, [same_category_warning]).
Proof. vm_compute. reflexivity. Qed.

(** ** What the updaters leave in each column *)

Section lookups.
Context (lead : Lead) (fromStatus toStatus : string).
Implicit Types (prev s : Store) (k : string).

Lemma optimistic_update_lookup prev s k :
  fromStatus ≠ toStatus →
  optimistic_update lead fromStatus toStatus prev = Some s →
  s !! k
  = if decide (k = toStatus)
    then Some (partition prev toStatus ++ [with_status lead toStatus])
    else if decide (k = fromStatus)
    then Some (without (_id lead) (partition prev fromStatus))
    else prev !! k.
Proof.
  intros Hne. unfold optimistic_update.
  destruct (prev !! fromStatus) as [l|] eqn:E; [|done].
  cbn. intros [= <-]. repeat case_decide; subst.
  - by rewrite lookup_insert_eq.
  - rewrite lookup_insert_ne by done. rewrite lookup_insert_eq.
    by rewrite (partition_Some _ _ _ E).
  - by rewrite !lookup_insert_ne.
Qed.

Lemma rollback_rejected_lookup prev s k :
  fromStatus ≠ toStatus →
  rollback_rejected lead fromStatus toStatus prev = Some s →
  s !! k
  = if decide (k = toStatus)
    then Some (without (_id lead) (partition prev toStatus))
    else if decide (k = fromStatus)
    then Some (partition prev fromStatus ++ [lead])
    else prev !! k.
Proof.
  intros Hne. unfold rollback_rejected.
  destruct (prev !! toStatus) as [l|] eqn:E; [|done].
  cbn. intros [= <-]. repeat case_decide; subst.
  - rewrite lookup_insert_eq. by rewrite (partition_Some _ _ _ E).
  - rewrite lookup_insert_ne by done. by rewrite lookup_insert_eq.
  - by rewrite !lookup_insert_ne.
Qed.

Lemma optimistic_update_keeps_keys prev s k :
  fromStatus ≠ toStatus →
  optimistic_update lead fromStatus toStatus prev = Some s →
  is_Some (prev !! k) → is_Some (s !! k).
Proof.
  intros Hne Hs Hk. rewrite (optimistic_update_lookup _ _ _ Hne Hs).
  repeat case_decide; eauto.
Qed.

Lemma rollback_rejected_keeps_keys prev s k :
  fromStatus ≠ toStatus →
  rollback_rejected lead fromStatus toStatus prev = Some s →
  is_Some (prev !! k) → is_Some (s !! k).
Proof.
  intros Hne Hs Hk. rewrite (rollback_rejected_lookup _ _ _ Hne Hs).
  repeat case_decide; eauto.
Qed.

Lemma optimistic_update_coherent prev s :
  fromStatus ≠ toStatus →
  optimistic_update lead fromStatus toStatus prev = Some s →
  coherent prev → coherent s.
Proof.
  intros Hne Hs Hprev k r. unfold partition at 1.
  rewrite (optimistic_update_lookup _ _ _ Hne Hs). repeat case_decide; subst; cbn.
  - rewrite elem_of_app, list_elem_of_singleton. intros [Hr | ->]; [eauto | done].
  - intros [Hr _]%elem_of_without. eauto.
  - apply Hprev.
Qed.

Lemma rollback_rejected_coherent prev s :
  fromStatus ≠ toStatus →
  status lead = fromStatus →
  rollback_rejected lead fromStatus toStatus prev = Some s →
  coherent prev → coherent s.
Proof.
  intros Hne Hlead Hs Hprev k r. unfold partition at 1.
  rewrite (rollback_rejected_lookup _ _ _ Hne Hs). repeat case_decide; subst; cbn.
  - intros [Hr _]%elem_of_without. eauto.
  - rewrite elem_of_app, list_elem_of_singleton. intros [Hr | ->]; [eauto | done].
  - apply Hprev.
Qed.
End lookups.

(** ** What the two halves of a drop change *)

Lemma handleDrop_sync_inv (p p1 : Page) (e : DragEvent) (toStatus : string)
    (phase : DropPhase) :
  handleDrop_sync p e toStatus = Some (p1, phase) →
  leads p1 = leads p ∧ error p1 = error p
  ∧ match phase with
    | Returned =>
        dataTransfer_fromStatus e = toStatus
        ∧ groupedLeads p1 = groupedLeads p
        ∧ requests p1 = requests p
    | AwaitingFetch =>
        dataTransfer_fromStatus e ≠ toStatus
        ∧ optimistic_update (dataTransfer_lead e) (dataTransfer_fromStatus e)
            toStatus (groupedLeads p) = Some (groupedLeads p1)
        ∧ requests p1 = requests p ++ [update_request (dataTransfer_lead e) toStatus]
    end.
Proof.
  unfold handleDrop_sync, setGroupedLeads. case_decide.
  - by intros [= <- <-].
  - destruct (optimistic_update _ _ _ _); cbn; [|done].
    by intros [= <- <-].
Qed.

Lemma handleDrop_resume_inv (p p' : Page) (e : DragEvent) (toStatus : string)
    (o : FetchOutcome) :
  handleDrop_resume p e toStatus o = Some p' →
  leads p' = leads p ∧ error p' = error p ∧ requests p' = requests p
  ∧ (p' = p
     ∨ rollback_rejected (dataTransfer_lead e) (dataTransfer_fromStatus e)
         toStatus (groupedLeads p) = Some (groupedLeads p')).
Proof.
  unfold handleDrop_resume, setGroupedLeads. destruct o as [[] | message].
  - intros [= <-]. eauto.
  - destruct (rollback_rejected _ _ _ _) eqn:E; cbn; [|done].
    intros [= <-]. cbn. eauto.
  - cbn. change (rollback_error (dataTransfer_lead e) (dataTransfer_fromStatus e)
                   toStatus (groupedLeads p))
      with (rollback_rejected (dataTransfer_lead e) (dataTransfer_fromStatus e)
              toStatus (groupedLeads p)).
    destruct (rollback_rejected _ _ _ _) eqn:E; cbn; [|done].
    intros [= <-]. cbn. eauto.
Qed.

Lemma handleDrop_resume_is_Some (p : Page) (e : DragEvent) (toStatus : string)
    (o : FetchOutcome) :
  is_Some (groupedLeads p !! toStatus) →
  is_Some (handleDrop_resume p e toStatus o).
Proof.
  intros Hto.
  apply (rollback_rejected_is_Some (dataTransfer_lead e)
           (dataTransfer_fromStatus e)) in Hto as [s Hs].
  unfold handleDrop_resume, setGroupedLeads. destruct o as [[] | message]; cbn.
  - eauto.
  - rewrite Hs. cbn. eauto.
  - change (rollback_error (dataTransfer_lead e) (dataTransfer_fromStatus e)
              toStatus (groupedLeads p))
      with (rollback_rejected (dataTransfer_lead e) (dataTransfer_fromStatus e)
              toStatus (groupedLeads p)).
    rewrite Hs. cbn. eauto.
Qed.

Lemma handleDrop_sync_is_Some (p : Page) (e : DragEvent) (toStatus : string) :
  is_Some (groupedLeads p !! dataTransfer_fromStatus e) →
  is_Some (handleDrop_sync p e toStatus).
Proof.
  intros Hfrom.
  apply (optimistic_update_is_Some (dataTransfer_lead e) _ toStatus)
    in Hfrom as [s Hs].
  unfold handleDrop_sync, setGroupedLeads. case_decide; [eauto |].
  rewrite Hs. cbn. eauto.
Qed.

(** ** The rendered columns *)

Lemma column_names_eq :
  column_names = ["New"; "Discussion"; "Demo"; "Proposal"; "Decided"].
Proof. reflexivity. Qed.

Lemma render_column_Cards (g : Store) (st : string) (l : list Lead) :
  render_column g st = Cards l ↔ g !! st = Some l ∧ l ≠ [].
Proof.
  unfold render_column. destruct (g !! st) as [l'|].
  - destruct l' as [|x l']; cbn.
    + split; [done |]. by intros [[= <-] ?].
    + rewrite bool_decide_eq_true_2 by lia. split.
      * by intros [= <-].
      * by intros [[= <-] _].
  - split; [done |]. by intros [? _].
Qed.

Lemma render_column_NoLeads (g : Store) (st : string) :
  render_column g st = NoLeadsAvailable ↔ partition g st = [].
Proof.
  unfold render_column, partition. destruct (g !! st) as [l|]; [| done].
  destruct l as [|x l]; cbn; [done |].
  rewrite bool_decide_eq_true_2 by lia. done.
Qed.

Lemma displayed_iff (p : Page) (lead : Lead) (st : string) :
  displayed p lead st
  ↔ st ∈ column_names ∧ lead ∈ partition (groupedLeads p) st.
Proof.
  unfold displayed.
  change (view_columns (render p))
    with ((λ st, (st, render_column (groupedLeads p) st)) <$> column_names).
  split.
  - intros (l & Hcol & Hin).
    apply list_elem_of_fmap in Hcol as (st' & [= <- Hl] & Hst).
    symmetry in Hl. apply render_column_Cards in Hl as [Hl _].
    by rewrite (partition_Some _ _ _ Hl).
  - intros [Hst Hin]. unfold partition in Hin.
    destruct (groupedLeads p !! st) as [l|] eqn:E; [| by apply elem_of_nil in Hin].
    exists l. split; [| done].
    apply list_elem_of_fmap. exists st. split; [| done].
    f_equal. symmetry. apply render_column_Cards. split; [done |].
    intros ->. by apply elem_of_nil in Hin.
Qed.

Lemma card_at_Some (p : Page) (st : string) (i : nat) (lead : Lead) :
  card_at p st i = Some lead →
  st ∈ column_names ∧ is_Some (groupedLeads p !! st)
  ∧ lead ∈ partition (groupedLeads p) st.
Proof.
  unfold card_at. case_decide; [| done].
  destruct (render_column (groupedLeads p) st) as [l|] eqn:E; [| done].
  apply render_column_Cards in E as [E _]. intros Hi.
  rewrite (partition_Some _ _ _ E).
  eauto using list_elem_of_lookup_2.
Qed.

(** ** What every event keeps *)

Lemma empty_coherent : coherent ∅.
Proof.
  intros k r. unfold partition. rewrite lookup_empty. by intros ?%elem_of_nil.
Qed.

Lemma grouped_coherent (fetched : list Lead) : coherent (grouped fetched).
Proof.
  destruct (decide (groupable fetched)) as [Hg | Hg].
  - intros k r. rewrite partition_grouped by done.
    by intros [Hk _]%list_elem_of_filter.
  - rewrite grouped_not_groupable by done. apply empty_coherent.
Qed.

Lemma fetchLeads_grouped (o : LoadOutcome) :
  groupedLeads (fetchLeads o initial_page)
  = match o with
    | LoadResponded true (fetched_array l) _ => grouped l
    | _ => ∅
    end.
Proof.
  destruct o as [[] [l | reduce_error] message | message]; try done.
  unfold fetchLeads, grouped. cbn.
  by destruct (reduce_leads ∅ l).
Qed.

Lemma mounted_coherent (o : LoadOutcome) :
  coherent (groupedLeads (page (mounted o))).
Proof.
  cbn. rewrite fetchLeads_grouped.
  destruct o as [[] [l | reduce_error] message | message];
    auto using grouped_coherent, empty_coherent.
Qed.

Lemma mounted_inv (o : LoadOutcome) :
  board_inv (groupedLeads (page (mounted o))) (mounted o).
Proof.
  split; [apply mounted_coherent | done | done |].
  intros e toStatus. cbn. by intros ?%elem_of_nil.
Qed.

Lemma board_step_inv (g0 : Store) (b b' : Board) (ev : Event) :
  board_inv g0 b → board_step b ev = Next b' → board_inv g0 b'.
Proof.
  intros [Hcoh Hhid Hdrag Hpend]. destruct ev as [st i | | toStatus | i o]; cbn.
  - destruct (card_at (page b) st i) as [lead|] eqn:Hcard; [| done].
    intros [= <-]. apply card_at_Some in Hcard as (Hst & Hsome & Hin).
    split; cbn; [done | done | | done].
    intros e [= <-]. cbn. eauto.
  - intros [= <-]. by split.
  - case_decide as Hto; [| done].
    destruct (dragging b) as [e|] eqn:He; [| intros [= <-]; split; [done | done | | done ];
      by rewrite He].
    destruct (Hdrag e eq_refl) as (Hstatus & Hfrom & Hsome).
    destruct (handleDrop_sync (page b) e toStatus) as [[p1 phase]|] eqn:Hsync; [| done].
    apply handleDrop_sync_inv in Hsync as (_ & _ & Hphase).
    destruct phase; intros [= <-].
    + destruct Hphase as (_ & Hg & _).
      split; cbn; rewrite ?Hg; done.
    + destruct Hphase as (Hne & Hg1 & _).
      split; cbn.
      * eauto using optimistic_update_coherent.
      * intros k Hk. rewrite (optimistic_update_lookup _ _ _ _ _ k Hne Hg1).
        rewrite !decide_False by (intros ->; done). by apply Hhid.
      * done.
      * intros e' to' [Hold | [= -> ->]%list_elem_of_singleton]%elem_of_app.
        -- destruct (Hpend _ _ Hold) as (? & ? & ? & ? & ?).
           eauto 7 using optimistic_update_keeps_keys.
        -- split; [done |]. split; [done |]. split; [done |]. split; [done |].
           rewrite (optimistic_update_lookup _ _ _ _ _ toStatus Hne Hg1).
           rewrite decide_True by done. eauto.
  - destruct (pending b !! i) as [[e toStatus]|] eqn:Hi; [| done].
    destruct (handleDrop_resume (page b) e toStatus o) as [p'|] eqn:Hres; [| done].
    intros [= <-].
    destruct (Hpend e toStatus (list_elem_of_lookup_2 _ _ _ Hi))
      as (Hstatus & Hne & Hfrom & Hto & Hsome).
    assert (∀ e' to', (e', to') ∈ delete i (pending b) → (e', to') ∈ pending b)
      as Hsub by eauto using list_elem_of_delete_inv.
    apply handleDrop_resume_inv in Hres as (_ & _ & _ & [-> | Hg']).
    + split; cbn; eauto.
    + split; cbn.
      * eauto using rollback_rejected_coherent.
      * intros k Hk. rewrite (rollback_rejected_lookup _ _ _ _ _ k Hne Hg').
        rewrite !decide_False by (intros ->; done). by apply Hhid.
      * intros e' He'. destruct (Hdrag e' He') as (? & ? & ?).
        eauto using rollback_rejected_keeps_keys.
      * intros e' to' Hin.
        destruct (Hpend _ _ (Hsub _ _ Hin)) as (? & ? & ? & ? & ?).
        eauto 7 using rollback_rejected_keeps_keys.
Qed.

Lemma board_step_no_throw (g0 : Store) (b : Board) (ev : Event) :
  board_inv g0 b → board_step b ev ≠ Throws.
Proof.
  intros [Hcoh Hhid Hdrag Hpend]. destruct ev as [st i | | toStatus | i o]; cbn.
  - by destruct (card_at (page b) st i).
  - done.
  - case_decide; [| done].
    destruct (dragging b) as [e|] eqn:He; [| done].
    destruct (Hdrag e eq_refl) as (_ & _ & Hsome).
    destruct (handleDrop_sync_is_Some (page b) e toStatus Hsome) as [[p1 phase] ->].
    by destruct phase.
  - destruct (pending b !! i) as [[e toStatus]|] eqn:Hi; [| done].
    destruct (Hpend e toStatus (list_elem_of_lookup_2 _ _ _ Hi))
      as (_ & _ & _ & _ & Hsome).
    by destruct (handleDrop_resume_is_Some (page b) e toStatus o Hsome) as [p' ->].
Qed.

Lemma board_run_inv (g0 : Store) (evs : list Event) (b b' : Board) :
  board_inv g0 b → board_run b evs = Next b' → board_inv g0 b'.
Proof.
  revert b. induction evs as [|ev evs IH]; intros b Hinv; cbn.
  - by intros [= <-].
  - destruct (board_step b ev) as [b1| |] eqn:Hstep; [| done | done].
    eauto using board_step_inv.
Qed.

Lemma board_run_no_throw (g0 : Store) (evs : list Event) (b : Board) :
  board_inv g0 b → board_run b evs ≠ Throws.
Proof.
  revert b. induction evs as [|ev evs IH]; intros b Hinv; cbn; [done |].
  destruct (board_step b ev) as [b1| |] eqn:Hstep; [| | done].
  - eauto using board_step_inv.
  - by apply (board_step_no_throw g0) in Hstep.
Qed.

Lemma board_step_frame (b b' : Board) (ev : Event) :
  board_step b ev = Next b' →
  leads (page b') = leads (page b) ∧ error (page b') = error (page b).
Proof.
  destruct ev as [st i | | toStatus | i o]; cbn.
  - destruct (card_at (page b) st i); [| done]. by intros [= <-].
  - by intros [= <-].
  - case_decide; [| done].
    destruct (dragging b) as [e|]; [| by intros [= <-]].
    destruct (handleDrop_sync (page b) e toStatus) as [[p1 phase]|] eqn:Hsync; [| done].
    apply handleDrop_sync_inv in Hsync as (? & ? & _).
    by destruct phase; intros [= <-].
  - destruct (pending b !! i) as [[e toStatus]|]; [| done].
    destruct (handleDrop_resume (page b) e toStatus o) as [p'|] eqn:Hres; [| done].
    apply handleDrop_resume_inv in Hres as (? & ? & _).
    by intros [= <-].
Qed.

Lemma board_run_frame (evs : list Event) (b b' : Board) :
  board_run b evs = Next b' →
  leads (page b') = leads (page b) ∧ error (page b') = error (page b).
Proof.
  revert b. induction evs as [|ev evs IH]; intros b; cbn.
  - by intros [= <-].
  - destruct (board_step b ev) as [b1| |] eqn:Hstep; [| done | done].
    intros Hrun. apply board_step_frame in Hstep as [<- <-]. by apply IH.
Qed.

(** X8.  However cards are dragged and dropped and whenever the requests
    settle, no state updater of the page throws: the column read without a
    guard has an entry each time.  A sequence of events either runs to a
    board or stops at an event that the page does not offer. *)
Theorem board_never_throws (o : LoadOutcome) (evs : list Event) :
  board_run (mounted o) evs = NoSuchEvent
  ∨ ∃ b, board_run (mounted o) evs = Next b.
Proof.
  pose proof (board_run_no_throw _ evs _ (mounted_inv o)) as Hno.
  destruct (board_run (mounted o) evs); eauto. done.
Qed.

(** X9.  On every board the events lead to, each card of the grouped leads
    has the status of the column it is in, so a card on screen is in the
    column named by its own status field, one of the five. *)
Theorem displayed_card_status (o : LoadOutcome) (evs : list Event) (b : Board) :
  board_run (mounted o) evs = Next b →
  coherent (groupedLeads (page b))
  ∧ ∀ lead st, displayed (page b) lead st → st ∈ column_names ∧ status lead = st.
Proof.
  intros Hrun.
  destruct (board_run_inv _ _ _ _ (mounted_inv o) Hrun) as [Hcoh _ _ _].
  split; [done |].
  intros lead st [Hst Hin]%displayed_iff. eauto.
Qed.

Lemma displayed_card_status_witness :
  coherent (groupedLeads (page raced_board))
  ∧ ∀ lead st, displayed (page raced_board) lead st
               → st ∈ column_names ∧ status lead = st.
Proof.
  apply (displayed_card_status (LoadResponded true (fetched_array [L1; L2; L3; L4]) "") raced_events).
  vm_compute. reflexivity.
Defined.

(** X10.  The entries of the grouped leads under keys that are not column
    names (leads fetched with another status) are never changed by any
    sequence of events. *)
Theorem hidden_entries_frozen (o : LoadOutcome) (evs : list Event) (b : Board)
    (k : string) :
  board_run (mounted o) evs = Next b →
  k ∉ column_names →
  groupedLeads (page b) !! k = groupedLeads (page (mounted o)) !! k.
Proof.
  intros Hrun Hk.
  destruct (board_run_inv _ _ _ _ (mounted_inv o) Hrun) as [_ Hhid _ _].
  by apply Hhid.
Qed.

Lemma hidden_entries_frozen_witness :
  groupedLeads (page raced_board) !! "Archived"
  = groupedLeads (page (mounted (LoadResponded true (fetched_array [L1; L2; L3; L4]) ""))) !! "Archived".
Proof.
  apply (hidden_entries_frozen (LoadResponded true (fetched_array [L1; L2; L3; L4]) "") raced_events).
  - vm_compute. reflexivity.
  - apply (bool_decide_unpack _). vm_compute. exact I.
Defined.

(** X12.  Dragging, dropping and the settling of requests never touch the
    [leads] and [error] states: the flat list of leads stays as fetched,
    and the error paragraph is the one of the load, so a failed update is
    never shown on the page. *)
Theorem drag_and_drop_keeps_banner (o : LoadOutcome) (evs : list Event) (b : Board) :
  board_run (mounted o) evs = Next b →
  leads (page b) = leads (page (mounted o))
  ∧ error (page b) = error (page (mounted o))
  ∧ banner (render (page b)) = banner (render (page (mounted o))).
Proof.
  intros [Hleads Herror]%board_run_frame.
  split; [done |]. split; [done |].
  unfold render. cbn [banner]. by rewrite Herror.
Qed.

Lemma drag_and_drop_keeps_banner_witness :
  leads (page raced_board) = leads (page (mounted (LoadResponded true (fetched_array [L1; L2; L3; L4]) "")))
  ∧ error (page raced_board) = error (page (mounted (LoadResponded true (fetched_array [L1; L2; L3; L4]) "")))
  ∧ banner (render (page raced_board))
    = banner (render (page (mounted (LoadResponded true (fetched_array [L1; L2; L3; L4]) "")))).
Proof.
  apply (drag_and_drop_keeps_banner (LoadResponded true (fetched_array [L1; L2; L3; L4]) "") raced_events).
  vm_compute. reflexivity.
Defined.

(** ** Grouping and the first render *)

Lemma group_into_is_Some (acc : Store) (lead : Lead) (k : string) :
  is_Some (group_into acc lead !! k) ↔ k = status lead ∨ is_Some (acc !! k).
Proof.
  unfold group_into. rewrite lookup_insert_is_Some'.
  destruct (acc !! status lead) eqn:E.
  - split; [intros [<- | ?]; eauto | intros [-> | ?]; eauto].
  - rewrite lookup_insert_is_Some'. split; [intros [<- | [<- | ?]]; eauto |].
    intros [-> | ?]; eauto.
Qed.

Lemma foldl_group_into_is_Some (fetched : list Lead) (acc : Store) (k : string) :
  is_Some (foldl group_into acc fetched !! k)
  ↔ is_Some (acc !! k) ∨ ∃ x, x ∈ fetched ∧ status x = k.
Proof.
  revert acc. induction fetched as [|lead fetched IH]; intros acc.
  - cbn. split; [eauto |]. intros [? | (x & ?%elem_of_nil & _)]; done.
  - change (foldl group_into acc (lead :: fetched))
      with (foldl group_into (group_into acc lead) fetched).
    rewrite IH, group_into_is_Some. split.
    + intros [[-> | ?] | (x & Hx & Hk)]; [right | by left | right].
      * exists lead. split; [apply list_elem_of_here | done].
      * exists x. split; [by apply list_elem_of_further | done].
    + intros [? | (x & [-> | Hx]%elem_of_cons & Hk)]; eauto.
Qed.

(** X1.  The reduce of [groupLeadsByStatus] throws exactly when some
    fetched lead has a status that the empty accumulator inherits.  When
    it does not throw, it puts under each status the fetched leads of that
    status, in the order of the fetch, and gives an entry to a status
    exactly when some fetched lead has it: no entry holds an empty
    array. *)
Theorem grouped_columns (fetched : list Lead) :
  match reduce_leads ∅ fetched with
  | Some g =>
      groupable fetched
      ∧ ∀ k, partition g k = filter (λ x, status x = k) fetched
             ∧ (is_Some (g !! k) ↔ ∃ x, x ∈ fetched ∧ status x = k)
             ∧ g !! k ≠ Some []
  | None => ∃ x, x ∈ fetched ∧ status x ∈ Object_prototype_names
  end.
Proof.
  destruct (decide (groupable fetched)) as [Hg | Hg].
  - rewrite reduce_leads_groupable by done. split; [done |]. intros k.
    assert (partition (foldl group_into ∅ fetched) k
            = filter (λ x, status x = k) fetched) as Hpart.
    { rewrite partition_foldl_group_into. unfold partition. by rewrite lookup_empty. }
    assert (is_Some (foldl group_into ∅ fetched !! k)
            ↔ ∃ x, x ∈ fetched ∧ status x = k) as Hkey.
    { rewrite foldl_group_into_is_Some, lookup_empty.
      split; [intros [[] | ?]; done | eauto]. }
    split; [done |]. split; [done |].
    intros E.
    assert (is_Some (foldl group_into ∅ fetched !! k)) as Hsome by (rewrite E; eauto).
    apply Hkey in Hsome as (x & Hx & Hk).
    assert (x ∈ partition (foldl group_into ∅ fetched) k) as Hin
      by (rewrite Hpart; by apply list_elem_of_filter).
    unfold partition in Hin. rewrite E in Hin. by apply elem_of_nil in Hin.
  - rewrite reduce_leads_not_groupable by done.
    apply not_Forall_Exists in Hg; [| apply _].
    apply Exists_exists in Hg as (x & Hx & Hnot).
    exists x. split; [done |]. by apply dec_stable.
Qed.

(** X2.  When the load fails, by an answer with [success = false] or by a
    request that throws, the page shows the error paragraph with the text
    "Failed to fetch leads" and "No leads available" in each of the five
    columns. *)
Theorem failed_load_view (o : LoadOutcome) :
  (∀ data message, o ≠ LoadResponded true data message) →
  render (fetchLeads o initial_page)
  = {| banner := Some "Failed to fetch leads";
       view_columns := (λ st, (st, NoLeadsAvailable)) <$> column_names |}.
Proof.
  intros Hfail. destruct o as [[] data message | message];
    [by destruct (Hfail data message) | done | done].
Qed.

Lemma failed_load_view_witness :
  render (fetchLeads (LoadThrew "Failed to fetch") initial_page)
  = {| banner := Some "Failed to fetch leads";
       view_columns := (λ st, (st, NoLeadsAvailable)) <$> column_names |}.
Proof.
  apply (failed_load_view (LoadThrew "Failed to fetch")). intros data message. done.
Defined.

Lemma fetchLeads_groupable (data : list Lead) (message : string) :
  groupable data →
  fetchLeads (LoadResponded true (fetched_array data) message) initial_page
  = {| leads := fetched_array data; groupedLeads := grouped data; error := "";
       console := []; requests := [{| url := getAllLeads_url; body := None |}] |}.
Proof.
  intros Hg. unfold fetchLeads, grouped. cbn.
  by rewrite reduce_leads_groupable.
Qed.

(** X3.  After a successful load of an array of leads none of which has a
    status that the empty accumulator inherits, no error paragraph is
    shown, and a lead is on screen in a column exactly when it was
    fetched, its status is the name of that column and that name is one
    of the five: a lead fetched with another status is shown nowhere. *)
Theorem loaded_view (data : list Lead) (message : string) (lead : Lead) (st : string) :
  groupable data →
  banner (render (fetchLeads (LoadResponded true (fetched_array data) message)
                    initial_page)) = None
  ∧ (displayed (fetchLeads (LoadResponded true (fetched_array data) message)
                  initial_page) lead st
     ↔ lead ∈ data ∧ status lead = st ∧ st ∈ column_names).
Proof.
  intros Hg. rewrite fetchLeads_groupable by done. split; [done |].
  rewrite displayed_iff. cbn [groupedLeads].
  rewrite partition_grouped, list_elem_of_filter by done. tauto.
Qed.

Lemma loaded_view_witness :
  banner (render (fetchLeads (LoadResponded true (fetched_array [L1; L2; L3; L4]) "")
                    initial_page)) = None
  ∧ (displayed (fetchLeads (LoadResponded true (fetched_array [L1; L2; L3; L4]) "")
                  initial_page) L4 "Archived"
     ↔ L4 ∈ [L1; L2; L3; L4] ∧ status L4 = "Archived" ∧ "Archived" ∈ column_names).
Proof.
  apply (loaded_view [L1; L2; L3; L4] "" L4 "Archived").
  apply (bool_decide_unpack _). vm_compute. exact I.
Defined.

(** X14.  When the answer says success but the grouping throws, because
    the value under [data] is not an array or because a lead has a status
    that the empty accumulator inherits, the [leads] state holds what was
    returned, the grouped leads stay empty, the message of the TypeError
    becomes the error, and each of the five columns shows "No leads
    available". *)
Theorem grouping_failure_view (data : Fetched) (message : string) :
  match data with
  | fetched_array l => ¬ groupable l
  | fetched_other _ => True
  end →
  leads (fetchLeads (LoadResponded true data message) initial_page) = data
  ∧ groupedLeads (fetchLeads (LoadResponded true data message) initial_page) = ∅
  ∧ error (fetchLeads (LoadResponded true data message) initial_page)
    = match data with
      | fetched_array _ => push_TypeError_message
      | fetched_other reduce_error => reduce_error
      end
  ∧ view_columns (render (fetchLeads (LoadResponded true data message) initial_page))
    = (λ st, (st, NoLeadsAvailable)) <$> column_names.
Proof.
  destruct data as [l | reduce_error]; [| done].
  intros Hg. unfold fetchLeads. cbn.
  rewrite reduce_leads_not_groupable by done. done.
Qed.

Lemma grouping_failure_view_witness :
  leads (fetchLeads (LoadResponded true (fetched_array [L1; L5]) "") initial_page)
    = fetched_array [L1; L5]
  ∧ groupedLeads (fetchLeads (LoadResponded true (fetched_array [L1; L5]) "")
                    initial_page) = ∅
  ∧ error (fetchLeads (LoadResponded true (fetched_array [L1; L5]) "") initial_page)
    = push_TypeError_message
  ∧ view_columns (render (fetchLeads (LoadResponded true (fetched_array [L1; L5]) "")
                            initial_page))
    = (λ st, (st, NoLeadsAvailable)) <$> column_names.
Proof.
  apply (grouping_failure_view (fetched_array [L1; L5]) "").
  apply (bool_decide_unpack _). vm_compute. exact I.
Defined.

(** ** What a drop changes and what it leaves *)

(** X4.  When the card dropped on another column was the only card of its
    column, the column keeps its entry, with an empty array, and shows
    "No leads available" like a column that never had an entry. *)
Theorem last_card_leaves_placeholder (p : Page) (lead : Lead)
    (fromStatus toStatus : string) :
  fromStatus ≠ toStatus →
  groupedLeads p !! fromStatus = Some [lead] →
  ∃ p1,
    handleDrop_sync p (handleDragStart lead fromStatus) toStatus
      = Some (p1, AwaitingFetch)
    ∧ groupedLeads p1 !! fromStatus = Some []
    ∧ render_column (groupedLeads p1) fromStatus = NoLeadsAvailable
    ∧ render_column (groupedLeads p1) toStatus
      = Cards (partition (groupedLeads p) toStatus ++ [with_status lead toStatus]).
Proof.
  intros Hne Hfrom.
  destruct (handleDrop_sync_moved p lead fromStatus toStatus Hne)
    as (s1 & Hs1 & Hrun); [by rewrite Hfrom |].
  eexists. split; [exact Hrun |]. cbn.
  assert (s1 !! fromStatus = Some []) as Hempty.
  { rewrite (optimistic_update_lookup _ _ _ _ _ fromStatus Hne Hs1).
    rewrite decide_False, decide_True by done.
    rewrite (partition_Some _ _ _ Hfrom). unfold without.
    rewrite filter_cons_False, filter_nil by (cbn; tauto). done. }
  split; [done |]. split.
  - apply render_column_NoLeads. by rewrite (partition_Some _ _ _ Hempty).
  - apply render_column_Cards. split.
    + rewrite (optimistic_update_lookup _ _ _ _ _ toStatus Hne Hs1).
      by rewrite decide_True.
    + by destruct (partition (groupedLeads p) toStatus).
Qed.

Lemma last_card_leaves_placeholder_witness :
  ∃ p1,
    handleDrop_sync loaded_page (handleDragStart L3 "Demo") "Decided"
      = Some (p1, AwaitingFetch)
    ∧ groupedLeads p1 !! "Demo" = Some []
    ∧ render_column (groupedLeads p1) "Demo" = NoLeadsAvailable
    ∧ render_column (groupedLeads p1) "Decided"
      = Cards (partition (groupedLeads loaded_page) "Decided"
               ++ [with_status L3 "Decided"]).
Proof.
  apply (last_card_leaves_placeholder loaded_page L3 "Demo" "Decided").
  - done.
  - vm_compute. reflexivity.
Defined.

(** X5.  A drop, whatever the answer of the server, changes nothing but
    the source and the destination column: the [leads] and [error] states
    and every other entry of the grouped leads are as before. *)
Theorem handleDrop_frame (p p' : Page) (e : DragEvent) (toStatus : string)
    (o : FetchOutcome) :
  handleDrop p e toStatus o = Some p' →
  leads p' = leads p
  ∧ error p' = error p
  ∧ ∀ k, k ≠ dataTransfer_fromStatus e → k ≠ toStatus →
         groupedLeads p' !! k = groupedLeads p !! k.
Proof.
  unfold handleDrop.
  destruct (handleDrop_sync p e toStatus) as [[p1 phase]|] eqn:Hsync; [| done].
  apply handleDrop_sync_inv in Hsync as (Hleads & Herror & Hphase). cbn.
  destruct phase.
  - intros [= <-]. destruct Hphase as (_ & -> & _). done.
  - destruct Hphase as (Hne & Hg1 & _).
    intros (Hleads' & Herror' & _ & Hg')%handleDrop_resume_inv.
    split; [congruence |]. split; [congruence |].
    intros k Hkf Hkt.
    assert (groupedLeads p1 !! k = groupedLeads p !! k) as H1.
    { rewrite (optimistic_update_lookup _ _ _ _ _ k Hne Hg1).
      by rewrite !decide_False. }
    destruct Hg' as [-> | Hg']; [done |].
    rewrite (rollback_rejected_lookup _ _ _ _ _ k Hne Hg').
    by rewrite !decide_False.
Qed.

Lemma handleDrop_frame_witness :
  ∃ p',
    handleDrop loaded_page (handleDragStart L1 "New") "Decided" (FetchThrew "offline")
      = Some p'
    ∧ leads p' = leads loaded_page
    ∧ error p' = error loaded_page
    ∧ ∀ k, k ≠ "New" → k ≠ "Decided" →
           groupedLeads p' !! k = groupedLeads loaded_page !! k.
Proof.
  eexists. split; [vm_compute; reflexivity |].
  apply (handleDrop_frame loaded_page _ (handleDragStart L1 "New") "Decided"
           (FetchThrew "offline")).
  vm_compute. reflexivity.
Defined.

(** X6.  A drop sends the update request once when the column differs
    from the source, with the identifier of the card and the new status,
    and sends nothing when it is the same column; a rejected or failed
    request is not sent again. *)
Theorem handleDrop_requests (p p' : Page) (e : DragEvent) (toStatus : string)
    (o : FetchOutcome) :
  handleDrop p e toStatus o = Some p' →
  requests p'
  = requests p
    ++ (if decide (dataTransfer_fromStatus e = toStatus) then []
        else [update_request (dataTransfer_lead e) toStatus]).
Proof.
  unfold handleDrop.
  destruct (handleDrop_sync p e toStatus) as [[p1 phase]|] eqn:Hsync; [| done].
  apply handleDrop_sync_inv in Hsync as (_ & _ & Hphase). cbn.
  destruct phase.
  - intros [= <-]. destruct Hphase as (Heq & _ & ->).
    rewrite decide_True by done. by rewrite app_nil_r.
  - destruct Hphase as (Hne & _ & Hreq).
    intros (_ & _ & -> & _)%handleDrop_resume_inv.
    by rewrite decide_False.
Qed.

Lemma handleDrop_requests_witness :
  ∃ p',
    handleDrop loaded_page (handleDragStart L1 "New") "Demo" (Responded false)
      = Some p'
    ∧ requests p'
      = requests loaded_page
        ++ (if decide ("New" = "Demo") then [] else [update_request L1 "Demo"]).
Proof.
  eexists. split; [vm_compute; reflexivity |].
  apply (handleDrop_requests loaded_page _ (handleDragStart L1 "New") "Demo"
           (Responded false)).
  vm_compute. reflexivity.
Defined.

Lemma optimistic_update_entry (lead : Lead) (fromStatus toStatus k : string)
    (prev s : Store) :
  optimistic_update lead fromStatus toStatus prev = Some s →
  is_Some (prev !! k) → is_Some (s !! k).
Proof.
  unfold optimistic_update. destruct (prev !! fromStatus); [| done].
  cbn. intros [= <-] Hk. rewrite !lookup_insert_is_Some'. eauto.
Qed.

Lemma rollback_rejected_entry (lead : Lead) (fromStatus toStatus k : string)
    (prev s : Store) :
  rollback_rejected lead fromStatus toStatus prev = Some s →
  is_Some (prev !! k) → is_Some (s !! k).
Proof.
  unfold rollback_rejected. destruct (prev !! toStatus); [| done].
  cbn. intros [= <-] Hk. rewrite !lookup_insert_is_Some'. eauto.
Qed.

(** X7.  Neither half of a drop removes an entry of the grouped leads: a
    status that has an entry before the synchronous part, or before the
    continuation run at any later time, still has one after it. *)
Theorem handlers_keep_keys (p : Page) (e : DragEvent) (toStatus : string)
    (o : FetchOutcome) (k : string) :
  is_Some (groupedLeads p !! k) →
  (∀ p1 phase, handleDrop_sync p e toStatus = Some (p1, phase) →
               is_Some (groupedLeads p1 !! k))
  ∧ (∀ p', handleDrop_resume p e toStatus o = Some p' →
           is_Some (groupedLeads p' !! k)).
Proof.
  intros Hk. split.
  - intros p1 phase (_ & _ & Hphase)%handleDrop_sync_inv. destruct phase.
    + destruct Hphase as (_ & -> & _). done.
    + destruct Hphase as (_ & Hg1 & _). eauto using optimistic_update_entry.
  - intros p' (_ & _ & _ & [-> | Hg'])%handleDrop_resume_inv; [done |].
    eauto using rollback_rejected_entry.
Qed.

Lemma handlers_keep_keys_witness :
  (∀ p1 phase,
     handleDrop_sync loaded_page (handleDragStart L3 "Demo") "Decided" = Some (p1, phase) →
     is_Some (groupedLeads p1 !! "Demo"))
  ∧ (∀ p',
       handleDrop_resume loaded_page (handleDragStart L1 "New") "Demo" (Responded false)
         = Some p' →
       is_Some (groupedLeads p' !! "Demo")).
Proof.
  split.
  - apply (handlers_keep_keys loaded_page (handleDragStart L3 "Demo") "Decided"
             (Responded true) "Demo").
    vm_compute. eauto.
  - apply (handlers_keep_keys loaded_page (handleDragStart L1 "New") "Demo"
             (Responded false) "Demo").
    vm_compute. eauto.
Defined.

(** ** One card per identifier in a column *)

Lemma NoDup_ids_filter (P : Lead → Prop) `{∀ x, Decision (P x)} (l : list Lead) :
  NoDup (ids l) → NoDup (ids (filter P l)).
Proof.
  unfold ids. induction l as [|x l IH]; [done |].
  rewrite fmap_cons, NoDup_cons. intros [Hx Hl].
  rewrite filter_cons. case_decide; [| eauto].
  rewrite fmap_cons, NoDup_cons. split; [| eauto].
  intros (y & Hid & [_ Hy]%list_elem_of_filter)%list_elem_of_fmap.
  apply Hx. rewrite Hid. by apply list_elem_of_fmap_2.
Qed.

Lemma NoDup_ids_snoc (l : list Lead) (r : Lead) :
  NoDup (ids l) → _id r ∉ ids l → NoDup (ids (l ++ [r])).
Proof.
  intros Hl Hr. rewrite ids_app. apply NoDup_app. split; [done |]. split.
  - intros j Hj. unfold ids. cbn. rewrite list_elem_of_singleton. by intros ->.
  - apply NoDup_singleton.
Qed.

Lemma move_step_columns (s s' : Store) :
  move_step s s' →
  ∃ lead a b r,
    a ≠ b ∧ present (_id lead) a s ∧ _id r = _id lead
    ∧ ∀ k, partition s' k
           = if decide (k = b) then partition s b ++ [r]
             else if decide (k = a) then without (_id lead) (partition s a)
             else partition s k.
Proof.
  intros [lead f t s1 Hne Hin Hs1 | lead f t s1 Hne Hin Hs1 | lead f t s1 Hne Hin Hs1].
  - exists lead, f, t, (with_status lead t).
    split; [done |]. split; [done |]. split; [done |].
    intros k. unfold partition at 1.
    rewrite (optimistic_update_lookup _ _ _ _ _ k Hne Hs1).
    by repeat case_decide.
  - exists lead, t, f, lead.
    split; [done |]. split; [done |]. split; [done |].
    intros k. unfold partition at 1.
    rewrite (rollback_rejected_lookup _ _ _ _ _ k Hne Hs1).
    repeat case_decide; subst; done.
  - exists lead, t, f, lead.
    split; [done |]. split; [done |]. split; [done |].
    intros k. unfold partition at 1.
    rewrite (rollback_rejected_lookup _ _ _ _ _ k Hne Hs1).
    repeat case_decide; subst; done.
Qed.

Lemma move_step_empty (s : Store) : ¬ move_step ∅ s.
Proof.
  assert (∀ id k, ¬ present id k ∅) as Hempty.
  { intros id k. unfold present, partition. rewrite lookup_empty.
    by intros ?%elem_of_nil. }
  intros [lead f t s1 _ Hin _ | lead f t s1 _ Hin _ | lead f t s1 _ Hin _];
    by apply Hempty in Hin.
Qed.

Lemma rtc_move_step_empty (s : Store) : rtc move_step ∅ s → s = ∅.
Proof.
  intros Hreach. revert s Hreach. apply (rtc_ind_r (λ s, s = ∅)); [done |].
  intros s1 s2 _ Hstep ->. by apply move_step_empty in Hstep.
Qed.

(** X11.  The leads of the load having pairwise distinct identifiers,
    after any sequence of moves each taking its card from a column the
    card is in, no column holds two cards with the same identifier: the
    React keys of the cards of a column are distinct. *)
Theorem column_keys_unique (fetched : list Lead) (s : Store) (k : string) :
  NoDup (ids fetched) →
  rtc move_step (grouped fetched) s →
  NoDup (ids (partition s k)).
Proof.
  intros Hnd Hreach.
  destruct (decide (groupable fetched)) as [Hg | Hg]; last first.
  { rewrite grouped_not_groupable in Hreach by done.
    apply rtc_move_step_empty in Hreach as ->.
    unfold partition. rewrite lookup_empty. constructor. }
  revert k.
  cut ((∀ id, id ∈ ids fetched → in_exactly_one_partition s id)
       ∧ (∀ id k, present id k s → id ∈ ids fetched)
       ∧ ∀ k, NoDup (ids (partition s k))); [tauto |].
  revert s Hreach.
  apply (rtc_ind_r
    (λ s, (∀ id, id ∈ ids fetched → in_exactly_one_partition s id)
          ∧ (∀ id k, present id k s → id ∈ ids fetched)
          ∧ ∀ k, NoDup (ids (partition s k)))).
  - split; [intros; by apply grouped_exactly_one |]. split.
    + intros id k (x & Hx & <- & _)%present_grouped; [| done].
      by apply list_elem_of_fmap_2.
    + intros k. rewrite partition_grouped by done. by apply NoDup_ids_filter.
  - intros s1 s2 Hreach Hstep (IHone & IHknown & IHnodup).
    destruct (move_step_moved _ _ Hstep) as (id & a & b & Hne & Hin & Hmoved).
    split; [| split].
    + intros j Hj. eapply moved_exactly_one; eauto.
    + intros j k Hj.
      destruct (moved_known _ _ _ _ _ _ _ Hin Hmoved Hj) as [k' Hk']. eauto.
    + destruct (move_step_columns _ _ Hstep)
        as (lead & a' & b' & r & Hne' & Hin' & Hr & Hcols).
      intros k. rewrite Hcols. repeat case_decide; subst.
      * apply NoDup_ids_snoc; [done |]. rewrite Hr. intros Hb.
        destruct (IHone (_id lead)) as (k0 & Hk0 & Huniq); [by eapply IHknown |].
        apply Hne'. by rewrite (Huniq a' Hin'), (Huniq b' Hb).
      * by apply NoDup_ids_filter.
      * done.
Qed.

Lemma column_keys_unique_witness :
  NoDup (ids (partition moved_and_back "New")).
Proof.
  apply (column_keys_unique [L1; L2; L3] moved_and_back "New").
  - apply (bool_decide_unpack _). vm_compute. exact I.
  - eapply rtc_l; [| eapply rtc_l; [| apply rtc_refl]].
    + apply (move_apply _ L1 "New" "Demo"
               (default ∅ (optimistic_update L1 "New" "Demo" (grouped [L1; L2; L3])))).
      * done.
      * apply (bool_decide_unpack _). vm_compute. exact I.
      * vm_compute. reflexivity.
    + apply (move_rollback_rejected _ L1 "New" "Demo").
      * done.
      * apply (bool_decide_unpack _). vm_compute. exact I.
      * vm_compute. reflexivity.
Defined.

(** ** No card lost, no card made up *)

Lemma moved_on_board (id a b : string) (s s' : Store) (j : string) :
  a ≠ b → moved id a b s s' →
  on_board s' j ↔ j = id ∨ on_board s j.
Proof.
  intros Hne Hmoved. split.
  - intros [k Hk]. apply Hmoved in Hk. unfold on_board.
    repeat case_decide; subst; [destruct Hk | destruct Hk |]; eauto.
  - destruct (decide (j = id)) as [-> | Hj].
    + intros _. exists b. apply Hmoved. rewrite decide_True by done. by right.
    + intros [? | [k Hk]]; [done |]. exists k. apply Hmoved.
      repeat case_decide; subst; eauto.
Qed.

Lemma mounted_ids_inv (o : LoadOutcome) :
  ids_inv (groupedLeads (page (mounted o))) (mounted o).
Proof.
  split; [done | done |]. intros e toStatus. cbn. by intros ?%elem_of_nil.
Qed.

Lemma board_step_ids_inv (g0 : Store) (b b' : Board) (ev : Event) :
  board_inv g0 b → ids_inv g0 b → board_step b ev = Next b' → ids_inv g0 b'.
Proof.
  intros [Hcoh Hhid Hdrag Hpend] [Hids Hdid Hpid].
  destruct ev as [st i | | toStatus | i o]; cbn.
  - destruct (card_at (page b) st i) as [lead|] eqn:Hcard; [| done].
    intros [= <-]. apply card_at_Some in Hcard as (_ & _ & Hin).
    split; cbn; [done | | done].
    intros e [= <-]. cbn. apply Hids. exists st.
    unfold present, ids. by apply list_elem_of_fmap_2.
  - intros [= <-]. by split.
  - case_decide as Hto; [| done].
    destruct (dragging b) as [e|] eqn:He;
      [| intros [= <-]; split; [done | by rewrite He | done]].
    destruct (handleDrop_sync (page b) e toStatus) as [[p1 phase]|] eqn:Hsync; [| done].
    apply handleDrop_sync_inv in Hsync as (_ & _ & Hphase).
    destruct phase; intros [= <-].
    + destruct Hphase as (_ & Hg & _). split; cbn; rewrite ?Hg; done.
    + destruct Hphase as (Hne & Hg1 & _).
      pose proof (optimistic_update_moved _ _ _ _ _ Hne Hg1) as Hmoved.
      split; cbn.
      * intros j. rewrite (moved_on_board _ _ _ _ _ j Hne Hmoved), Hids.
        split; [intros [-> | ?]; eauto | eauto].
      * done.
      * intros e' to' [Hold | [= -> ->]%list_elem_of_singleton]%elem_of_app; eauto.
  - destruct (pending b !! i) as [[e toStatus]|] eqn:Hi; [| done].
    destruct (handleDrop_resume (page b) e toStatus o) as [p'|] eqn:Hres; [| done].
    intros [= <-].
    pose proof (list_elem_of_lookup_2 _ _ _ Hi) as Hin.
    destruct (Hpend e toStatus Hin) as (_ & Hne & _).
    assert (∀ e' to', (e', to') ∈ delete i (pending b) → (e', to') ∈ pending b)
      as Hsub by eauto using list_elem_of_delete_inv.
    apply handleDrop_resume_inv in Hres as (_ & _ & _ & [-> | Hg']).
    + split; cbn; eauto.
    + pose proof (rollback_rejected_moved _ _ _ _ _ Hne Hg') as Hmoved.
      split; cbn; [| done | eauto].
      intros j.
      rewrite (moved_on_board _ _ _ _ _ j (not_eq_sym Hne) Hmoved), Hids.
      split; [intros [-> | ?]; eauto | eauto].
Qed.

Lemma board_run_ids_inv (g0 : Store) (evs : list Event) (b b' : Board) :
  board_inv g0 b → ids_inv g0 b → board_run b evs = Next b' → ids_inv g0 b'.
Proof.
  revert b. induction evs as [|ev evs IH]; intros b Hinv Hids; cbn.
  - by intros [= <-].
  - destruct (board_step b ev) as [b1| |] eqn:Hstep; [| done | done].
    eauto using board_step_inv, board_step_ids_inv.
Qed.

(** X13.  Whatever the order of drags, drops and answers, the identifiers
    of the cards in the grouped leads stay those of the load: a card can
    come to be in two columns or twice in one, but none disappears from
    the grouped leads and none appears that was not fetched. *)
Theorem board_ids_constant (o : LoadOutcome) (evs : list Event) (b : Board)
    (id : string) :
  board_run (mounted o) evs = Next b →
  on_board (groupedLeads (page b)) id
  ↔ on_board (groupedLeads (page (mounted o))) id.
Proof.
  intros Hrun.
  by destruct (board_run_ids_inv _ _ _ _ (mounted_inv o) (mounted_ids_inv o) Hrun)
    as [Hids _ _].
Qed.

Lemma board_ids_constant_witness :
  on_board (groupedLeads (page raced_board)) "L1"
  ↔ on_board (groupedLeads (page (mounted (LoadResponded true (fetched_array [L1; L2; L3; L4]) "")))) "L1".
Proof.
  apply (board_ids_constant (LoadResponded true (fetched_array [L1; L2; L3; L4]) "") raced_events).
  vm_compute. reflexivity.
Defined.

(** The board of [raced_events]: L1 is twice in "New". *)
Example raced_board_columns :
  board_run (mounted (LoadResponded true (fetched_array [L1; L2; L3; L4]) "")) raced_events
    = Next raced_board
  ∧ ids (partition (groupedLeads (page raced_board)) "New") = ["L2"; "L1"; "L1"]
  ∧ ids (partition (groupedLeads (page raced_board)) "Demo") = ["L3"].
Proof. repeat split; vm_compute; reflexivity. Qed.

(** ** The five statuses and the inherited names *)

(** No column name is a name that the empty accumulator inherits, so a
    load whose statuses are all among the five is grouped without a
    throw. *)
Lemma column_names_not_inherited (st : string) :
  st ∈ column_names → st ∉ Object_prototype_names.
Proof.
  rewrite column_names_eq, !elem_of_cons, elem_of_nil.
  intros [-> | [-> | [-> | [-> | [-> | []]]]]];
    apply (bool_decide_unpack _); vm_compute; exact I.
Qed.

Lemma enum_statuses_groupable (fetched : list Lead) :
  Forall (λ lead, status lead ∈ column_names) fetched → groupable fetched.
Proof.
  unfold groupable. intros Hall. eapply Forall_impl; [exact Hall |].
  intros lead. apply column_names_not_inherited.
Qed.
